(** * A binary heap with a mode flag and a caller-supplied comparator

    Shallow embedding of [src/binary-heap.js] and verification of the
    properties its specification states: construction, [insert] / [_heapUp],
    [peek], [remove] / [_heapDown], the heap property and sorted extraction.

    - The JS array behind [this[_storage]] is a [list value], read with
      stdpp's [!!] and written with [<[i:=v]>]; what JS does out of range
      is written out in [get], [set] and [pop].
    - A method that mutates the instance is a function from the instance
      to the new instance, with the returned value in front when there is
      one.
    - The caller's elements have a type [T]; [undefined] and [false],
      which the code produces by itself, are kept apart from them.
    - The comparator is a function: it returns a number for any two values
      and raises nothing. *)

From stdpp Require Import base list strings.
From Stdlib Require Import ZArith Lia Sorting.Sorted.

(** ** Numbers

    The code multiplies a comparator result by [1] or [-1] and tests it with
    [>= 0]; nothing else is done with it.  A JS number is therefore kept as
    an integer carrying its sign, or [NaN], for which every [>=] test is
    false (a comparator such as [(a, b) => a - b] yields [NaN] as soon as an
    argument is [undefined]). *)
Inductive number : Type :=
| NaN
| Num (z : Z).

(** JS [a * b]. *)
Definition mul (a b : number) : number :=
  match a, b with
  | Num x, Num y => Num (x * y)
  | _, _ => NaN
  end.

(** JS [a >= 0]. *)
Definition ge0 (a : number) : bool :=
  match a with
  | Num z => (0 <=? z)%Z
  | NaN => false
  end.

(** JS [a <= 0]. *)
Definition le0 (a : number) : bool :=
  match a with
  | Num z => (z <=? 0)%Z
  | NaN => false
  end.

(** ** Modes and errors *)

(** Modelled from the spec: the module [./mode], which exports [MinHeap]
    and [MaxHeap], is not part of the sources; the spec describes the
    two exports as the two recognised mode constants, [Min] and [Max]. *)
Inductive mode : Type :=
| MinHeap
| MaxHeap.

(** A thrown [new Error(message)]. *)
Inductive exn : Type :=
| Error (message : string).

Inductive result (A : Type) : Type :=
| Return (a : A)
| Throw (e : exn).
Arguments Return {A} a.
Arguments Throw {A} e.

Section Heap.
(** The caller's element type. *)
Context {T : Type}.

(** The values that reach the storage and the results: the caller's
    elements and the two values the code produces by itself, [undefined]
    (a read past the end of an array, [pop] of an empty array) and
    [false] (the result of [peek] on an empty heap). *)
Inductive value : Type :=
| VUndefined
| VFalse
| VElem (x : T).

(** A comparator is any JS function of two values; its result is read as
    a [number]. *)
Definition comparator_fn : Type := value -> value -> number.

(** What a caller can pass to [Factory] and [init]: nothing
    ([undefined]), a mode constant, a function, or some other value
    (a string in the tests). *)
Inductive jsarg : Type :=
| JUndefined
| JString (s : string)
| JMode (m : mode)
| JFunction (f : comparator_fn).

(** The three hidden fields of an instance. *)
Record heap : Type := Heap {
  _mode : mode;
  _comparator : comparator_fn;
  _storage : list value
}.

Definition with_storage (h : heap) (s : list value) : heap :=
  {| _mode := _mode h; _comparator := _comparator h; _storage := s |}.

(** *** JS array primitives *)

(** [s[i]]: [undefined] past the end. *)
Definition get (s : list value) (i : nat) : value :=
  default VUndefined (s !! i).

(** [s[i] = v]: in range the slot is overwritten; past the end the array
    grows up to index [i] (the skipped slots read back as [undefined]). *)
Definition set (s : list value) (i : nat) (v : value) : list value :=
  if decide (i < length s) then <[i:=v]> s
  else s ++ replicate (i - length s) VUndefined ++ [v].

(** [s.push(v)]. *)
Definition push (s : list value) (v : value) : list value := s ++ [v].

(** [s.pop()]: the last element and the shortened array; on an empty
    array [undefined], and the array stays empty. *)
Definition pop (s : list value) : value * list value :=
  (default VUndefined (last s), take (length s - 1) s).

(** *** Construction *)

(** [init(mode, comparator)].  [-1 === [MinHeap, MaxHeap].indexOf(mode)]
    holds exactly when [mode] is neither constant; the mode is validated
    before the comparator. *)
Definition init (mode comparator : jsarg) : result heap :=
  match mode with
  | JMode m =>
      match comparator with
      | JFunction f =>
          Return {| _mode := m; _comparator := f; _storage := [] |}
      | _ => Throw (Error "Invalid comparator")
      end
  | _ => Throw (Error "Invalid mode")
  end.

(** A JS default parameter: used when the argument is [undefined]. *)
Definition default_param (d a : jsarg) : jsarg :=
  match a with
  | JUndefined => d
  | _ => a
  end.

(** [Factory(mode = MinHeap, comparator = naivePrimitiveComparator)].
    The default comparator lives in a module that is not part of the
    sources; it is a parameter here. *)
Definition Factory (naivePrimitiveComparator : comparator_fn)
    (mode comparator : jsarg) : result heap :=
  init (default_param (JMode MinHeap) mode)
       (default_param (JFunction naivePrimitiveComparator) comparator).

(** *** Sifting *)

(** [_heapUp(index)], unrolled [fuel] times.  [parentIndex] is
    [Math.floor((index - 1) / 2)]; the method is private and is entered
    with [index >= 1] only (from [insert] when the array has two elements
    or more, and from itself when [parentIndex] is not [0]). *)
Fixpoint heapUp_rec (m : mode) (cmp : comparator_fn) (fuel : nat)
    (s : list value) (index : nat) : list value :=
  match fuel with
  | 0 => s
  | S fuel' =>
      let parentIndex := (index - 1) / 2 in
      let value := get s index in
      let parentValue := get s parentIndex in
      let comparisonResult :=
        mul (cmp value parentValue)
            (match m with MaxHeap => Num (-1) | MinHeap => Num 1 end) in
      if ge0 comparisonResult then s
      else
        let s' := set (set s parentIndex value) index parentValue in
        if decide (0 = parentIndex) then s'
        else heapUp_rec m cmp fuel' s' parentIndex
  end.

(** [_heapUp]: every call moves to a strictly smaller index, so [index]
    unrollings are enough ([heapUp_rec_enough] below). *)
Definition _heapUp (m : mode) (cmp : comparator_fn)
    (s : list value) (index : nat) : list value :=
  heapUp_rec m cmp index s index.

(** [_heapDown(index)], unrolled [fuel] times. *)
Fixpoint heapDown_rec (m : mode) (cmp : comparator_fn) (fuel : nat)
    (s : list value) (index : nat) : list value :=
  match fuel with
  | 0 => s
  | S fuel' =>
      let leftChildIndex := 2 * index + 1 in
      if decide (length s <= leftChildIndex) then s
      else
        let rightChildIndex := 2 * index + 2 in
        let value := get s index in
        let leftChildValue := get s leftChildIndex in
        let '(comparisonIndex, comparisonValue) :=
          if bool_decide (leftChildIndex < length s)
             && bool_decide (rightChildIndex < length s)
          then
            let rightChildValue := get s rightChildIndex in
            let childComparisonResult :=
              cmp leftChildValue rightChildValue in
            match m with
            | MaxHeap =>
                if ge0 childComparisonResult
                then (leftChildIndex, leftChildValue)
                else (rightChildIndex, rightChildValue)
            | MinHeap =>
                if ge0 childComparisonResult
                then (rightChildIndex, rightChildValue)
                else (leftChildIndex, leftChildValue)
            end
          else (leftChildIndex, leftChildValue) in
        let comparisonResult :=
          mul (cmp value comparisonValue)
              (match m with MinHeap => Num (-1) | MaxHeap => Num 1 end) in
        if ge0 comparisonResult then s
        else
          let s' := set (set s comparisonIndex value) index comparisonValue in
          heapDown_rec m cmp fuel' s' comparisonIndex
  end.

(** [_heapDown]: every call moves to a strictly larger index below the
    length, so [length s] unrollings are enough ([heapDown_rec_enough]
    below). *)
Definition _heapDown (m : mode) (cmp : comparator_fn)
    (s : list value) (index : nat) : list value :=
  heapDown_rec m cmp (length s) s index.

(** *** The public methods *)

Definition insert (element : value) (h : heap) : heap :=
  let s := push (_storage h) element in
  if decide (1 = length s) then with_storage h s
  else with_storage h (_heapUp (_mode h) (_comparator h) s (length s - 1)).

Definition peek (h : heap) : value :=
  if decide (length (_storage h) = 0) then VFalse
  else get (_storage h) 0.

Definition remove (h : heap) : value * heap :=
  if decide (1 = length (_storage h)) then
    let '(last, s) := pop (_storage h) in
    (last, with_storage h s)
  else
    let root := get (_storage h) 0 in
    let '(last, s) := pop (_storage h) in
    let s := set s 0 last in
    (root, with_storage h (_heapDown (_mode h) (_comparator h) s 0)).
End Heap.

Arguments value T : clear implicits.
Arguments comparator_fn T : clear implicits.
Arguments jsarg T : clear implicits.
Arguments heap T : clear implicits.

(** ** Callers *)

Section Callers.
Context {T : Type}.

(** A heap right after a successful construction. *)
Definition new_heap (m : mode) (cmp : comparator_fn T) : heap T :=
  {| _mode := m; _comparator := cmp; _storage := [] |}.

(** One call of the public interface by a caller that inserts elements
    of its type; [insert] has no [return], so the call evaluates to
    [undefined]; [peek] leaves the instance as it is. *)
Inductive call : Type :=
| Insert (element : T)
| Peek
| Remove.

Definition exec (c : call) (h : heap T) : value T * heap T :=
  match c with
  | Insert element => (VUndefined, insert (VElem element) h)
  | Peek => (peek h, h)
  | Remove => remove h
  end.

(** A sequence of calls on one instance, with the results in order. *)
Fixpoint run (cs : list call) (h : heap T) : list (value T) * heap T :=
  match cs with
  | [] => ([], h)
  | c :: cs' =>
      let '(v, h') := exec c h in
      let '(vs, h'') := run cs' h' in
      (v :: vs, h'')
  end.

(** [elements.forEach(el => h.insert(el))]. *)
Definition insert_all (xs : list T) (h : heap T) : heap T :=
  foldl (fun h x => insert (VElem x) h) h xs.

(** The values that signal emptiness: [false] from [peek], [undefined]
    from [remove]. *)
Definition is_empty_sentinel (v : value T) : bool :=
  match v with
  | VElem _ => false
  | VUndefined | VFalse => true
  end.

(** JS [ToBoolean]; [truthy] is the truthiness of the caller's own
    elements ([0] and the empty string are not truthy, for instance). *)
Definition ToBoolean (truthy : T -> bool) (v : value T) : bool :=
  match v with
  | VUndefined | VFalse => false
  | VElem x => truthy x
  end.

(** The traversal of the caller contract: call [remove] until it yields
    the empty sentinel, collecting what it returned before.  [None] when
    [fuel] calls were not enough to reach the sentinel. *)
Fixpoint drain (fuel : nat) (h : heap T) : option (list (value T) * heap T) :=
  match fuel with
  | 0 => None
  | S fuel' =>
      let '(el, h') := remove h in
      if is_empty_sentinel el then Some ([], h')
      else
        match drain fuel' h' with
        | Some (out, h'') => Some (el :: out, h'')
        | None => None
        end
  end.
End Callers.

Arguments call T : clear implicits.

(** ** Predicates *)

Section Properties.
Context {T : Type}.

(** "[x] is not worse than [y]" for a mode: [comparator(x, y) <= 0] in
    Min mode, [comparator(x, y) >= 0] in Max mode. *)
Definition not_worse (m : mode) (cmp : comparator_fn T) (x y : value T) : bool :=
  match m with
  | MinHeap => le0 (cmp x y)
  | MaxHeap => ge0 (cmp x y)
  end.

(** The heap property on a storage array: every index is not worse than
    its children at [2i+1] and [2i+2], for those that exist. *)
Definition heap_ordered (m : mode) (cmp : comparator_fn T)
    (s : list (value T)) : Prop :=
  forall i c x y,
    c = 2 * i + 1 \/ c = 2 * i + 2 ->
    s !! i = Some x -> s !! c = Some y ->
    not_worse m cmp x y = true.

Definition heap_property (h : heap T) : Prop :=
  heap_ordered (_mode h) (_comparator h) (_storage h).

(** A comparator that is a consistent total order on the caller's
    elements: any two are comparable, swapping the arguments swaps the
    sign, and "sorts before or with" is transitive. *)
Record total_order (cmp : comparator_fn T) : Prop := {
  cmp_total : forall x y,
    le0 (cmp (VElem x) (VElem y)) = true \/
    le0 (cmp (VElem y) (VElem x)) = true;
  cmp_consistent : forall x y,
    ge0 (cmp (VElem x) (VElem y)) = le0 (cmp (VElem y) (VElem x));
  cmp_trans : forall x y z,
    le0 (cmp (VElem x) (VElem y)) = true ->
    le0 (cmp (VElem y) (VElem z)) = true ->
    le0 (cmp (VElem x) (VElem z)) = true
}.

(** The storage holds elements of the caller only. *)
Definition is_elem (v : value T) : Prop :=
  match v with
  | VElem _ => True
  | _ => False
  end.

(** Ascending order by the comparator in Min mode, descending order in
    Max mode: every output is not worse than all the later ones. *)
Definition sorted_for (m : mode) (cmp : comparator_fn T)
    (out : list T) : Prop :=
  match m with
  | MinHeap =>
      StronglySorted
        (fun a b => le0 (cmp (VElem a) (VElem b)) = true) out
  | MaxHeap =>
      StronglySorted
        (fun a b => ge0 (cmp (VElem a) (VElem b)) = true) out
  end.

(** The invariants of the two sifts.  While [_heapUp] works at index
    [k], every index but [k] is ordered after its parent, and the
    children of [k] are ordered after the parent of [k]. *)
Definition up_inv (m : mode) (cmp : comparator_fn T)
    (s : list (value T)) (k : nat) : Prop :=
  (forall j, 1 <= j < length s -> j <> k ->
     not_worse m cmp (get s ((j - 1) / 2)) (get s j) = true) /\
  (1 <= k -> forall j, 1 <= j < length s -> (j - 1) / 2 = k ->
     not_worse m cmp (get s ((k - 1) / 2)) (get s j) = true).

(** While [_heapDown] works at index [k], every index whose parent is
    not [k] is ordered after its parent, and the children of [k] are
    ordered after the parent of [k]. *)
Definition down_inv (m : mode) (cmp : comparator_fn T)
    (s : list (value T)) (k : nat) : Prop :=
  (forall j, 1 <= j < length s -> (j - 1) / 2 <> k ->
     not_worse m cmp (get s ((j - 1) / 2)) (get s j) = true) /\
  (1 <= k -> forall j, 1 <= j < length s -> (j - 1) / 2 = k ->
     not_worse m cmp (get s ((k - 1) / 2)) (get s j) = true).

(** A heap as the data model describes it: elements of the caller in the
    storage, in heap order. *)
Definition valid (h : heap T) : Prop :=
  Forall is_elem (_storage h) /\ heap_property h.

(** Sequences of calls that never call [remove] on an empty storage. *)
Fixpoint no_remove_on_empty (cs : list (call T)) (h : heap T) : Prop :=
  match cs with
  | [] => True
  | c :: cs' =>
      match c with
      | Remove => _storage h <> []
      | _ => True
      end /\ no_remove_on_empty cs' (exec c h).2
  end.
End Properties.

(** ** The algorithms in the words of the specification *)

Section SpecAlgorithms.
Context {T : Type}.
Variable m : mode.
Variable cmp : comparator_fn T.

(** Exchange of two slots of the storage. *)
Definition swap (s : list (value T)) (i j : nat) : list (value T) :=
  <[i := get s j]> (<[j := get s i]> s).

(** Sift-up: "negate it in Max mode". *)
Definition adjusted_up (r : number) : number :=
  match m with
  | MaxHeap => mul r (Num (-1))
  | MinHeap => r
  end.

(** Sift-down: "negate in Min mode". *)
Definition adjusted_down (r : number) : number :=
  match m with
  | MinHeap => mul r (Num (-1))
  | MaxHeap => r
  end.

(** Sift-up from index [i] as the spec words it: nothing at index 0; at
    [i > 0] compare the value with its parent at [floor((i-1)/2)]; stop
    when the adjusted result is [>= 0]; otherwise swap and go on from the
    parent's index. *)
Inductive sift_up_spec : list (value T) -> nat -> list (value T) -> Prop :=
| sift_up_root s :
    sift_up_spec s 0 s
| sift_up_stop s i :
    0 < i ->
    ge0 (adjusted_up (cmp (get s i) (get s ((i - 1) / 2)))) = true ->
    sift_up_spec s i s
| sift_up_swap s i s' :
    0 < i ->
    ge0 (adjusted_up (cmp (get s i) (get s ((i - 1) / 2)))) = false ->
    sift_up_spec (swap s i ((i - 1) / 2)) ((i - 1) / 2) s' ->
    sift_up_spec s i s'.

(** The child index [i] is compared against: with both children in
    bounds, in Max mode the one the comparator ranks higher-or-equal, in
    Min mode the other, smaller one; with only the left child in bounds,
    the left child. *)
Definition chosen_child (s : list (value T)) (i : nat) : nat :=
  let l := 2 * i + 1 in
  let r := 2 * i + 2 in
  if decide (r < length s) then
    let left_ranks_higher_or_equal := ge0 (cmp (get s l) (get s r)) in
    match m with
    | MaxHeap => if left_ranks_higher_or_equal then l else r
    | MinHeap => if left_ranks_higher_or_equal then r else l
    end
  else l.

(** Sift-down from index [i] as the spec words it. *)
Inductive sift_down_spec : list (value T) -> nat -> list (value T) -> Prop :=
| sift_down_leaf s i :
    length s <= 2 * i + 1 ->
    sift_down_spec s i s
| sift_down_stop s i :
    2 * i + 1 < length s ->
    ge0 (adjusted_down (cmp (get s i) (get s (chosen_child s i)))) = true ->
    sift_down_spec s i s
| sift_down_swap s i s' :
    2 * i + 1 < length s ->
    ge0 (adjusted_down (cmp (get s i) (get s (chosen_child s i)))) = false ->
    sift_down_spec (swap s i (chosen_child s i)) (chosen_child s i) s' ->
    sift_down_spec s i s'.
End SpecAlgorithms.

(** ** Instances used in the examples *)

(** The comparator [(a, b) => a - b] on integers; a subtraction with
    [undefined] or [false - undefined] is [NaN], and [false] counts as
    [0]. *)
Definition to_number (v : value Z) : number :=
  match v with
  | VUndefined => NaN
  | VFalse => Num 0
  | VElem z => Num z
  end.

Definition subtract (a b : value Z) : number :=
  match to_number a, to_number b with
  | Num x, Num y => Num (x - y)
  | _, _ => NaN
  end.

(** The scenario of the test suite. *)
Definition scenario : list Z := [5; 1; 19; 2; -1; 10]%Z.

(** ** Further callers and comparators *)

Section MoreCallers.
Context {T : Type}.

(** The traversal of the test suite, [while (el = h.remove()) { ... }]:
    it stops at the first result that is not truthy, be it the sentinel
    or an element of the caller.  [None] when [fuel] calls were not
    enough. *)
Fixpoint drain_truthy (truthy : T -> bool) (fuel : nat) (h : heap T)
    : option (list (value T) * heap T) :=
  match fuel with
  | 0 => None
  | S fuel' =>
      let '(el, h') := remove h in
      if ToBoolean truthy el then
        match drain_truthy truthy fuel' h' with
        | Some (out, h'') => Some (el :: out, h'')
        | None => None
        end
      else Some ([], h')
  end.

(** The elements a sequence of calls inserts, in order. *)
Fixpoint inserted (cs : list (call T)) : list T :=
  match cs with
  | [] => []
  | Insert x :: cs' => x :: inserted cs'
  | _ :: cs' => inserted cs'
  end.

(** The results of the [remove] calls of a sequence, picked from the
    results [vs] of all its calls. *)
Fixpoint removed (cs : list (call T)) (vs : list (value T)) : list (value T) :=
  match cs, vs with
  | Remove :: cs', v :: vs' => v :: removed cs' vs'
  | _ :: cs', _ :: vs' => removed cs' vs'
  | _, _ => []
  end.

(** The comparator [(a, b) => -comparator(a, b)]. *)
Definition negated (cmp : comparator_fn T) : comparator_fn T :=
  fun a b => mul (cmp a b) (Num (-1)).
End MoreCallers.

(** * Verification *)

(** ** Arrays *)

Section ArrayFacts.
Context {T : Type}.
Implicit Types (s : list (value T)) (v x y : value T) (i j k : nat).

Lemma get_lookup s i x : s !! i = Some x -> get s i = x.
Proof. unfold get. intros ->. reflexivity. Qed.

Lemma lookup_get s i : i < length s -> s !! i = Some (get s i).
Proof.
  intros Hi. unfold get.
  destruct (lookup_lt_is_Some_2 s i Hi) as [x ->]. reflexivity.
Qed.

Lemma set_lt s i v : i < length s -> set s i v = <[i:=v]> s.
Proof. intros Hi. unfold set. destruct (decide (i < length s)); [reflexivity | lia]. Qed.

Lemma pop_snoc s x : pop (s ++ [x]) = (x, s).
Proof.
  unfold pop. rewrite last_snoc, length_app. simpl.
  replace (length s + 1 - 1) with (length s) by lia.
  rewrite take_app_length. reflexivity.
Qed.

Lemma length_swap s i j : length (swap s i j) = length s.
Proof. unfold swap. rewrite !length_insert. reflexivity. Qed.

Lemma get_swap s i j k :
  i < length s -> j < length s ->
  get (swap s i j) k =
    if decide (k = i) then get s j
    else if decide (k = j) then get s i
    else get s k.
Proof.
  intros Hi Hj. unfold swap, get at 1.
  destruct (decide (k = i)) as [->|Hki].
  - rewrite list_lookup_insert_eq; [reflexivity | rewrite length_insert; lia].
  - rewrite list_lookup_insert_ne by congruence.
    destruct (decide (k = j)) as [->|Hkj].
    + rewrite list_lookup_insert_eq by lia. reflexivity.
    + rewrite list_lookup_insert_ne by congruence. reflexivity.
Qed.

(** The two writes of a swap in the code are an exchange of two slots. *)
Lemma set_set_swap s i j :
  i < length s -> j < length s ->
  set (set s j (get s i)) i (get s j) = swap s i j.
Proof.
  intros Hi Hj. unfold swap.
  rewrite (set_lt s j) by assumption.
  rewrite set_lt by (rewrite length_insert; assumption).
  reflexivity.
Qed.

Lemma insert_swap_head s j x y :
  s !! j = Some y -> y :: <[j:=x]> s ≡ₚ x :: s.
Proof.
  revert j. induction s as [|a s IH]; intros [|j] Hj; simplify_eq/=.
  - apply perm_swap.
  - rewrite (perm_swap a y), (IH _ Hj). apply perm_swap.
Qed.

Lemma swap_perm s i j :
  i < length s -> j < length s -> swap s i j ≡ₚ s.
Proof.
  intros Hi Hj. unfold swap.
  revert i j Hi Hj. induction s as [|a s IH]; intros i j Hi Hj; [simpl in Hi; lia|].
  destruct i as [|i], j as [|j]; simpl in *.
  - reflexivity.
  - unfold get. simpl. destruct (lookup_lt_is_Some_2 s j ltac:(lia)) as [y Hy].
    rewrite Hy. simpl. apply insert_swap_head. assumption.
  - unfold get. simpl. destruct (lookup_lt_is_Some_2 s i ltac:(lia)) as [y Hy].
    rewrite Hy. simpl. apply insert_swap_head. assumption.
  - constructor. apply (IH i j); lia.
Qed.
End ArrayFacts.

(** ** Index arithmetic *)

Lemma parent_cases j :
  1 <= j -> j = 2 * ((j - 1) / 2) + 1 \/ j = 2 * ((j - 1) / 2) + 2.
Proof.
  intros Hj.
  pose proof (Nat.div_mod_eq (j - 1) 2).
  pose proof (Nat.mod_upper_bound (j - 1) 2).
  lia.
Qed.

Lemma parent_lt j : 1 <= j -> (j - 1) / 2 < j.
Proof. intros Hj. pose proof (parent_cases j Hj). lia. Qed.

Lemma parent_left i : (2 * i + 1 - 1) / 2 = i.
Proof. symmetry. apply (Nat.div_unique _ 2 i 0); lia. Qed.

Lemma parent_right i : (2 * i + 2 - 1) / 2 = i.
Proof. symmetry. apply (Nat.div_unique _ 2 i 1); lia. Qed.

(** ** The code performs the sifts of the specification *)

Lemma mul_one r : mul r (Num 1) = r.
Proof. destruct r as [|z]; [reflexivity|]. simpl. f_equal. lia. Qed.

Section Refinement.
Context {T : Type}.
Variable m : mode.
Variable cmp : comparator_fn T.
Implicit Types (s : list (value T)) (i : nat).

Lemma up_factor r :
  mul r (match m with MaxHeap => Num (-1) | MinHeap => Num 1 end)
  = adjusted_up m r.
Proof. unfold adjusted_up. destruct m; [apply mul_one | reflexivity]. Qed.

Lemma down_factor r :
  mul r (match m with MinHeap => Num (-1) | MaxHeap => Num 1 end)
  = adjusted_down m r.
Proof. unfold adjusted_down. destruct m; [reflexivity | apply mul_one]. Qed.

Lemma heapUp_rec_spec fuel s i :
  1 <= i <= fuel -> i < length s ->
  sift_up_spec m cmp s i (heapUp_rec m cmp fuel s i).
Proof.
  revert s i. induction fuel as [|fuel IH]; intros s i Hi Hlen; [lia|].
  pose proof (parent_lt i ltac:(lia)) as Hp.
  cbn [heapUp_rec]. cbv zeta.
  rewrite up_factor.
  destruct (ge0 _) eqn:Hge.
  - apply sift_up_stop; [lia | assumption].
  - rewrite set_set_swap by lia.
    apply sift_up_swap; [lia | assumption |].
    destruct (decide (0 = (i - 1) / 2)) as [<-|Hne].
    + apply sift_up_root.
    + apply IH; [lia | rewrite length_swap; lia].
Qed.

Lemma heapUp_spec s i :
  1 <= i < length s -> sift_up_spec m cmp s i (_heapUp m cmp s i).
Proof. intros Hi. apply heapUp_rec_spec; lia. Qed.

Lemma chosen_child_range s i :
  2 * i + 1 < length s ->
  (chosen_child m cmp s i = 2 * i + 1 \/
   chosen_child m cmp s i = 2 * i + 2)
  /\ chosen_child m cmp s i < length s.
Proof.
  intros Hl. unfold chosen_child.
  destruct (decide (2 * i + 2 < length s)); [|lia].
  destruct m, (ge0 _); lia.
Qed.

Lemma heapDown_rec_spec fuel s i :
  length s - i <= fuel ->
  sift_down_spec m cmp s i (heapDown_rec m cmp fuel s i).
Proof.
  revert s i. induction fuel as [|fuel IH]; intros s i Hfuel.
  - cbn [heapDown_rec]. apply sift_down_leaf. lia.
  - cbn [heapDown_rec]. cbv zeta.
    destruct (decide (length s <= 2 * i + 1)) as [Hleaf|Hl].
    { apply sift_down_leaf. assumption. }
    assert (Hpair :
      (if bool_decide (2 * i + 1 < length s)
          && bool_decide (2 * i + 2 < length s)
       then
         match m with
         | MinHeap =>
             if ge0 (cmp (get s (2 * i + 1)) (get s (2 * i + 2)))
             then (2 * i + 2, get s (2 * i + 2))
             else (2 * i + 1, get s (2 * i + 1))
         | MaxHeap =>
             if ge0 (cmp (get s (2 * i + 1)) (get s (2 * i + 2)))
             then (2 * i + 1, get s (2 * i + 1))
             else (2 * i + 2, get s (2 * i + 2))
         end
       else (2 * i + 1, get s (2 * i + 1)))
      = (chosen_child m cmp s i, get s (chosen_child m cmp s i))).
    { unfold chosen_child. rewrite bool_decide_eq_true_2 by lia.
      cbn [andb]. cbv zeta.
      destruct (decide (2 * i + 2 < length s)).
      - rewrite bool_decide_eq_true_2 by assumption.
        destruct m, (ge0 _); reflexivity.
      - rewrite bool_decide_eq_false_2 by assumption. reflexivity. }
    rewrite Hpair, down_factor. clear Hpair.
    destruct (chosen_child_range s i ltac:(lia)) as [Hc Hclt].
    destruct (ge0 (adjusted_down _ _)) eqn:Hge.
    + apply sift_down_stop; [lia | assumption].
    + rewrite set_set_swap by lia.
      apply sift_down_swap; [lia | assumption |].
      apply IH. rewrite length_swap. lia.
Qed.

Lemma heapDown_spec s i : sift_down_spec m cmp s i (_heapDown m cmp s i).
Proof. apply heapDown_rec_spec. lia. Qed.

(** The specification's sifts are functions: the result is determined. *)
Lemma sift_up_spec_fun s i s1 s2 :
  sift_up_spec m cmp s i s1 -> sift_up_spec m cmp s i s2 -> s1 = s2.
Proof.
  intros H1. revert s2.
  induction H1 as [s|s i Hi Hge|s i s' Hi Hge _ IH]; intros s2 H2;
    inversion H2; subst; try reflexivity; try lia; try congruence.
  apply IH. assumption.
Qed.

Lemma sift_down_spec_fun s i s1 s2 :
  sift_down_spec m cmp s i s1 -> sift_down_spec m cmp s i s2 -> s1 = s2.
Proof.
  intros H1. revert s2.
  induction H1 as [s i Hl|s i Hl Hge|s i s' Hl Hge _ IH]; intros s2 H2;
    inversion H2; subst; try reflexivity; try lia; try congruence.
  apply IH. assumption.
Qed.

(** Any amount of fuel beyond the bound gives the same result. *)
Lemma heapUp_rec_enough fuel s i :
  1 <= i <= fuel -> i < length s ->
  heapUp_rec m cmp fuel s i = _heapUp m cmp s i.
Proof.
  intros Hi Hlen. eapply sift_up_spec_fun.
  - apply heapUp_rec_spec; eassumption.
  - apply heapUp_spec. lia.
Qed.

Lemma heapDown_rec_enough fuel s i :
  length s - i <= fuel ->
  heapDown_rec m cmp fuel s i = _heapDown m cmp s i.
Proof.
  intros Hfuel. eapply sift_down_spec_fun.
  - apply heapDown_rec_spec; eassumption.
  - apply heapDown_spec.
Qed.
End Refinement.

(** ** Consequences of a consistent total order *)

Section Order.
Context {T : Type}.
Variable m : mode.
Variable cmp : comparator_fn T.
Hypothesis Hto : total_order cmp.
Implicit Types (x y z v p c : value T).

Lemma cmp_num (a b : T) : exists n, cmp (VElem a) (VElem b) = Num n.
Proof.
  destruct (cmp (VElem a) (VElem b)) as [|n] eqn:Hab; [|eauto].
  exfalso.
  pose proof (cmp_consistent cmp Hto a b) as H1.
  pose proof (cmp_consistent cmp Hto b a) as H2.
  rewrite Hab in H1, H2. simpl in H1, H2.
  destruct (cmp_total cmp Hto a b) as [H|H]; rewrite ?Hab in H;
    simpl in H; congruence.
Qed.

(** The sign of [cmp b a] is the opposite of the sign of [cmp a b]. *)
Lemma cmp_signs (a b : T) :
  exists n k,
    cmp (VElem a) (VElem b) = Num n /\ cmp (VElem b) (VElem a) = Num k /\
    ((0 <= n)%Z <-> (k <= 0)%Z) /\ ((0 <= k)%Z <-> (n <= 0)%Z).
Proof.
  destruct (cmp_num a b) as [n Hn], (cmp_num b a) as [k Hk].
  exists n, k. split; [assumption|]. split; [assumption|].
  pose proof (cmp_consistent cmp Hto a b) as H1.
  pose proof (cmp_consistent cmp Hto b a) as H2.
  rewrite Hn, Hk in H1, H2. simpl in H1, H2.
  split.
  - rewrite <- !Z.leb_le, H1. reflexivity.
  - rewrite <- !Z.leb_le, H2. reflexivity.
Qed.

Lemma not_worse_trans x y z :
  is_elem x -> is_elem y -> is_elem z ->
  not_worse m cmp x y = true -> not_worse m cmp y z = true ->
  not_worse m cmp x z = true.
Proof.
  destruct x as [| |a], y as [| |b], z as [| |c]; try contradiction.
  intros _ _ _. unfold not_worse. destruct m.
  - apply (cmp_trans cmp Hto).
  - rewrite !(cmp_consistent cmp Hto). intros Hba Hcb.
    exact (cmp_trans cmp Hto c b a Hcb Hba).
Qed.

Lemma not_worse_refl x : is_elem x -> not_worse m cmp x x = true.
Proof.
  destruct x as [| |a]; try contradiction. intros _.
  destruct (cmp_signs a a) as (n & k & Hn & Hk & H1 & H2).
  assert (n = k) by congruence. subst k.
  unfold not_worse. destruct m; rewrite Hn; simpl; lia.
Qed.

(** [_heapUp] stops: the parent is not worse than the value. *)
Lemma up_test_true v p :
  is_elem v -> is_elem p ->
  ge0 (adjusted_up m (cmp v p)) = true -> not_worse m cmp p v = true.
Proof.
  destruct v as [| |a], p as [| |b]; try contradiction. intros _ _.
  destruct (cmp_signs a b) as (n & k & Hn & Hk & H1 & H2).
  unfold adjusted_up, not_worse. destruct m; rewrite Hn, Hk; simpl; lia.
Qed.

(** [_heapUp] swaps: the value is not worse than its parent. *)
Lemma up_test_false v p :
  is_elem v -> is_elem p ->
  ge0 (adjusted_up m (cmp v p)) = false -> not_worse m cmp v p = true.
Proof.
  destruct v as [| |a], p as [| |b]; try contradiction. intros _ _.
  destruct (cmp_signs a b) as (n & k & Hn & Hk & H1 & H2).
  unfold adjusted_up, not_worse. destruct m; rewrite Hn; simpl; lia.
Qed.

(** [_heapDown] stops: the value is not worse than the chosen child. *)
Lemma down_test_true v c :
  is_elem v -> is_elem c ->
  ge0 (adjusted_down m (cmp v c)) = true -> not_worse m cmp v c = true.
Proof.
  destruct v as [| |a], c as [| |b]; try contradiction. intros _ _.
  destruct (cmp_signs a b) as (n & k & Hn & Hk & H1 & H2).
  unfold adjusted_down, not_worse. destruct m; rewrite Hn; simpl; lia.
Qed.

(** [_heapDown] swaps: the chosen child is not worse than the value. *)
Lemma down_test_false v c :
  is_elem v -> is_elem c ->
  ge0 (adjusted_down m (cmp v c)) = false -> not_worse m cmp c v = true.
Proof.
  destruct v as [| |a], c as [| |b]; try contradiction. intros _ _.
  destruct (cmp_signs a b) as (n & k & Hn & Hk & H1 & H2).
  unfold adjusted_down, not_worse. destruct m; rewrite Hn, Hk; simpl; lia.
Qed.

Lemma elem_get (s : list (value T)) i :
  Forall is_elem s -> i < length s -> is_elem (get s i).
Proof.
  intros Hs Hi. rewrite Forall_lookup in Hs.
  apply (Hs i). apply lookup_get. assumption.
Qed.

(** The chosen child is not worse than either child. *)
Lemma chosen_child_not_worse (s : list (value T)) i j :
  Forall is_elem s ->
  j < length s -> j = 2 * i + 1 \/ j = 2 * i + 2 ->
  not_worse m cmp (get s (chosen_child m cmp s i)) (get s j) = true.
Proof.
  intros Hs Hj Hchild. unfold chosen_child.
  destruct (decide (2 * i + 2 < length s)) as [Hr|Hr].
  - pose proof (elem_get s (2 * i + 1) Hs ltac:(lia)) as El.
    pose proof (elem_get s (2 * i + 2) Hs ltac:(lia)) as Er.
    pose proof (not_worse_refl _ El) as Rl.
    pose proof (not_worse_refl _ Er) as Rr.
    destruct (get s (2 * i + 1)) as [| |a] eqn:Hl; try contradiction.
    destruct (get s (2 * i + 2)) as [| |b] eqn:Hrr; try contradiction.
    destruct (cmp_signs a b) as (n & k & Hn & Hk & H1 & H2).
    revert Rl Rr. unfold not_worse. rewrite Hn. cbn [ge0].
    destruct m, Hchild as [->| ->];
      destruct (0 <=? n)%Z eqn:Hle; rewrite ?Hl, ?Hrr, ?Hn, ?Hk;
      cbn [ge0 le0]; intros Rl Rr; try assumption; lia.
  - assert (j = 2 * i + 1) as -> by lia.
    apply not_worse_refl, elem_get; [assumption | lia].
Qed.
End Order.

(** ** The sifts restore the heap order *)

Section Invariants.
Context {T : Type}.
Variable m : mode.
Variable cmp : comparator_fn T.
Hypothesis Hto : total_order cmp.
Implicit Types (s : list (value T)) (i j k : nat).

(** The heap order, read from the child to its parent. *)
Lemma heap_ordered_parent s :
  heap_ordered m cmp s <->
  forall j, 1 <= j < length s ->
    not_worse m cmp (get s ((j - 1) / 2)) (get s j) = true.
Proof.
  split.
  - intros H j Hj.
    pose proof (parent_cases j ltac:(lia)) as Hc.
    apply (H ((j - 1) / 2) j); [lia | |]; apply lookup_get; lia.
  - intros H i c x y Hc Hi Hy.
    pose proof (lookup_lt_Some _ _ _ Hy) as Hlt.
    rewrite <- (get_lookup _ _ _ Hi), <- (get_lookup _ _ _ Hy).
    replace i with ((c - 1) / 2).
    + apply H. lia.
    + destruct Hc as [-> | ->]; [apply parent_left | apply parent_right].
Qed.

Lemma sift_up_perm s i s' :
  sift_up_spec m cmp s i s' -> i < length s -> s' ≡ₚ s.
Proof.
  induction 1 as [s|s i Hi Hge|s i s' Hi Hge _ IH]; intros Hlen;
    try reflexivity.
  pose proof (parent_lt i ltac:(lia)).
  rewrite IH by (rewrite length_swap; lia).
  apply swap_perm; lia.
Qed.

Lemma sift_down_perm s i s' :
  sift_down_spec m cmp s i s' -> s' ≡ₚ s.
Proof.
  induction 1 as [s i Hl|s i Hl Hge|s i s' Hl Hge _ IH]; try reflexivity.
  destruct (chosen_child_range m cmp s i Hl) as [_ Hc].
  rewrite IH. apply swap_perm; lia.
Qed.

Lemma up_inv_done s k :
  up_inv m cmp s k ->
  (k = 0 \/ not_worse m cmp (get s ((k - 1) / 2)) (get s k) = true) ->
  heap_ordered m cmp s.
Proof.
  intros [Ha _] Hk. apply heap_ordered_parent. intros j Hj.
  destruct (decide (j = k)) as [->|Hne]; [|apply Ha; assumption].
  destruct Hk as [->|Hk]; [lia | assumption].
Qed.

Lemma up_inv_swap s k :
  Forall is_elem s -> 1 <= k < length s ->
  up_inv m cmp s k ->
  not_worse m cmp (get s k) (get s ((k - 1) / 2)) = true ->
  up_inv m cmp (swap s k ((k - 1) / 2)) ((k - 1) / 2).
Proof.
  intros Hs Hk [Ha Hb] Hvp.
  pose proof (parent_lt k ltac:(lia)) as Hp.
  set (p := (k - 1) / 2) in *.
  assert (Htrans : forall a b c, a < length s -> b < length s -> c < length s ->
    not_worse m cmp (get s a) (get s b) = true ->
    not_worse m cmp (get s b) (get s c) = true ->
    not_worse m cmp (get s a) (get s c) = true).
  { intros a b c ? ? ?. apply (not_worse_trans m cmp Hto);
      apply elem_get; assumption. }
  split.
  - rewrite length_swap. intros j Hj Hjp.
    pose proof (parent_lt j ltac:(lia)) as Hpj.
    rewrite !get_swap by lia.
    destruct (decide (j = k)) as [->|Hjk].
    + fold p. rewrite decide_False by lia. rewrite decide_True by reflexivity.
      assumption.
    + rewrite (decide_False (P := j = p)) by assumption.
      destruct (decide ((j - 1) / 2 = k)) as [Hpk|Hpk].
      * specialize (Hb ltac:(lia) j Hj Hpk). assumption.
      * destruct (decide ((j - 1) / 2 = p)) as [Hpp|Hpp].
        -- apply (Htrans k p j); [lia..|assumption|].
           rewrite <- Hpp. apply Ha; assumption.
        -- apply Ha; assumption.
  - rewrite length_swap. intros Hp1 j Hj Hjp.
    pose proof (parent_lt p ltac:(lia)) as Hpp.
    rewrite !get_swap by lia.
    rewrite (decide_False (P := (p - 1) / 2 = k)) by lia.
    rewrite (decide_False (P := (p - 1) / 2 = p)) by lia.
    pose proof (Ha p ltac:(lia) ltac:(lia)) as Hgp.
    destruct (decide (j = k)) as [->|Hjk]; [assumption|].
    pose proof (parent_lt j ltac:(lia)).
    rewrite (decide_False (P := j = p)) by lia.
    apply (Htrans ((p - 1) / 2) p j); [lia..|assumption|].
    rewrite <- Hjp. apply Ha; assumption.
Qed.

Lemma sift_up_ordered s i s' :
  sift_up_spec m cmp s i s' ->
  Forall is_elem s -> i < length s -> up_inv m cmp s i ->
  heap_ordered m cmp s'.
Proof.
  induction 1 as [s|s i Hi Hge|s i s' Hi Hge _ IH]; intros Hs Hlen Hinv.
  - eapply up_inv_done; [eassumption | left; reflexivity].
  - pose proof (parent_lt i ltac:(lia)).
    eapply up_inv_done; [eassumption | right].
    apply (up_test_true m cmp Hto);
      [apply elem_get; (assumption || lia).. | assumption].
  - pose proof (parent_lt i ltac:(lia)).
    apply IH.
    + rewrite swap_perm by lia. assumption.
    + rewrite length_swap. lia.
    + apply up_inv_swap; [assumption | lia | assumption |].
      apply (up_test_false m cmp Hto);
        [apply elem_get; (assumption || lia).. | assumption].
Qed.

Lemma down_inv_leaf s k :
  down_inv m cmp s k -> length s <= 2 * k + 1 -> heap_ordered m cmp s.
Proof.
  intros [Ha _] Hleaf. apply heap_ordered_parent. intros j Hj.
  apply Ha; [assumption|].
  pose proof (parent_cases j ltac:(lia)). lia.
Qed.

Lemma down_inv_stop s k :
  Forall is_elem s -> 2 * k + 1 < length s ->
  down_inv m cmp s k ->
  not_worse m cmp (get s k) (get s (chosen_child m cmp s k)) = true ->
  heap_ordered m cmp s.
Proof.
  intros Hs Hl [Ha _] Hvc. apply heap_ordered_parent. intros j Hj.
  destruct (decide ((j - 1) / 2 = k)) as [Hjk|Hjk]; [|apply Ha; assumption].
  pose proof (parent_cases j ltac:(lia)) as Hc.
  destruct (chosen_child_range m cmp s k Hl) as [_ Hclt].
  rewrite Hjk.
  apply (not_worse_trans m cmp Hto _ (get s (chosen_child m cmp s k)));
    try (apply elem_get; (assumption || lia)); [assumption|].
  apply (chosen_child_not_worse m cmp Hto); [assumption | lia | lia].
Qed.

Lemma down_inv_swap s k :
  Forall is_elem s -> 2 * k + 1 < length s ->
  down_inv m cmp s k ->
  not_worse m cmp (get s (chosen_child m cmp s k)) (get s k) = true ->
  down_inv m cmp (swap s k (chosen_child m cmp s k)) (chosen_child m cmp s k).
Proof.
  intros Hs Hl [Ha Hb] Hcv.
  destruct (chosen_child_range m cmp s k Hl) as [Hc Hclt].
  pose proof (chosen_child_not_worse m cmp Hto s k) as Hbest.
  set (c := chosen_child m cmp s k) in *.
  assert (Hpc : (c - 1) / 2 = k).
  { destruct Hc as [-> | ->]; [apply parent_left | apply parent_right]. }
  split.
  - rewrite length_swap. intros j Hj Hjc.
    pose proof (parent_cases j ltac:(lia)) as Hpj.
    rewrite !get_swap by lia.
    destruct (decide (j = k)) as [->|Hjk].
    + rewrite (decide_False (P := (k - 1) / 2 = k)) by lia.
      rewrite (decide_False (P := (k - 1) / 2 = c)) by lia.
      apply Hb; lia.
    + destruct (decide (j = c)) as [->|Hjc'].
      * rewrite Hpc, decide_True by reflexivity. assumption.
      * destruct (decide ((j - 1) / 2 = k)) as [Hpk|Hpk].
        -- apply Hbest; [assumption | lia | lia].
        -- rewrite (decide_False (P := (j - 1) / 2 = c)) by assumption.
           apply Ha; assumption.
  - rewrite length_swap. intros Hc1 j Hj Hjc.
    pose proof (parent_cases j ltac:(lia)) as Hpj.
    rewrite !get_swap by lia.
    rewrite Hpc, decide_True by reflexivity.
    rewrite (decide_False (P := j = k)) by lia.
    rewrite (decide_False (P := j = c)) by lia.
    rewrite <- Hjc. apply Ha; lia.
Qed.

Lemma sift_down_ordered s i s' :
  sift_down_spec m cmp s i s' ->
  Forall is_elem s -> down_inv m cmp s i ->
  heap_ordered m cmp s'.
Proof.
  induction 1 as [s i Hl|s i Hl Hge|s i s' Hl Hge _ IH]; intros Hs Hinv.
  - eapply down_inv_leaf; eassumption.
  - destruct (chosen_child_range m cmp s i Hl) as [_ Hclt].
    eapply down_inv_stop; try eassumption.
    apply (down_test_true m cmp Hto);
      [apply elem_get; (assumption || lia).. | assumption].
  - destruct (chosen_child_range m cmp s i Hl) as [_ Hclt].
    apply IH.
    + rewrite swap_perm by lia. assumption.
    + apply down_inv_swap; try assumption.
      apply (down_test_false m cmp Hto);
        [apply elem_get; (assumption || lia).. | assumption].
Qed.
End Invariants.

(** ** The public methods *)

Section Operations.
Context {T : Type}.
Implicit Types (h : heap T) (s mid : list (value T)) (e x root last : value T).

Lemma get_app_l s1 s2 i : i < length s1 -> get (s1 ++ s2) i = get s1 i.
Proof. intros Hi. unfold get. rewrite lookup_app_l by assumption. reflexivity. Qed.

Lemma insert_mode e h : _mode (insert e h) = _mode h.
Proof. unfold insert. destruct (decide _); reflexivity. Qed.

Lemma insert_comparator e h : _comparator (insert e h) = _comparator h.
Proof. unfold insert. destruct (decide _); reflexivity. Qed.

Lemma insert_storage_nil e h :
  _storage h = [] -> _storage (insert e h) = [e].
Proof. intros Hs. unfold insert, push. rewrite Hs. reflexivity. Qed.

Lemma insert_storage_cons e h :
  _storage h <> [] ->
  _storage (insert e h) =
    _heapUp (_mode h) (_comparator h) (_storage h ++ [e]) (length (_storage h)).
Proof.
  intros Hs. unfold insert, push. rewrite length_app. simpl.
  destruct (_storage h) as [|x s]; [contradiction|]. simpl.
  destruct (decide _) as [Hl|_]; [lia|]. simpl.
  do 2 f_equal. lia.
Qed.

Lemma remove_nil h :
  _storage h = [] -> remove h = (VUndefined, with_storage h [VUndefined]).
Proof. intros Hs. unfold remove. rewrite Hs. reflexivity. Qed.

Lemma remove_singleton h x :
  _storage h = [x] -> remove h = (x, with_storage h []).
Proof. intros Hs. unfold remove. rewrite Hs. reflexivity. Qed.

Lemma remove_cons_snoc h root mid last :
  _storage h = root :: mid ++ [last] ->
  remove h =
    (root, with_storage h
             (_heapDown (_mode h) (_comparator h) (last :: mid) 0)).
Proof.
  intros Hs. unfold remove. rewrite Hs.
  destruct (decide _) as [Hl|_].
  { simpl in Hl. rewrite length_app in Hl. simpl in Hl. lia. }
  rewrite app_comm_cons, pop_snoc. reflexivity.
Qed.

(** A storage is empty, a singleton, or a root, a middle and a last
    element. *)
Lemma storage_cases s :
  s = [] \/ (exists x, s = [x]) \/
  (exists root mid last, s = root :: mid ++ [last]).
Proof.
  destruct s as [|root rest]; [left; reflexivity | right].
  destruct (decide (rest = [])) as [->|Hne]; [left; eauto | right].
  apply last_is_Some in Hne as [last Hlast].
  apply last_Some in Hlast as [mid ->]. eauto.
Qed.

Lemma remove_mode h : _mode (remove h).2 = _mode h.
Proof.
  destruct (storage_cases (_storage h)) as [Hs|[[x Hs]|(r & mid & l & Hs)]].
  - rewrite (remove_nil h Hs). reflexivity.
  - rewrite (remove_singleton h x Hs). reflexivity.
  - rewrite (remove_cons_snoc h r mid l Hs). reflexivity.
Qed.

Lemma remove_comparator h : _comparator (remove h).2 = _comparator h.
Proof.
  destruct (storage_cases (_storage h)) as [Hs|[[x Hs]|(r & mid & l & Hs)]].
  - rewrite (remove_nil h Hs). reflexivity.
  - rewrite (remove_singleton h x Hs). reflexivity.
  - rewrite (remove_cons_snoc h r mid l Hs). reflexivity.
Qed.

Lemma insert_perm e h : _storage (insert e h) ≡ₚ _storage h ++ [e].
Proof.
  destruct (decide (_storage h = [])) as [Hs|Hs].
  - rewrite (insert_storage_nil e h Hs), Hs. reflexivity.
  - rewrite (insert_storage_cons e h Hs).
    eapply sift_up_perm.
    + apply heapUp_spec. rewrite length_app. simpl.
      destruct (_storage h); [contradiction | simpl; lia].
    + rewrite length_app. simpl. lia.
Qed.

Lemma remove_root h :
  _storage h <> [] -> (remove h).1 = get (_storage h) 0.
Proof.
  intros Hne.
  destruct (storage_cases (_storage h)) as [Hs|[[x Hs]|(r & mid & l & Hs)]].
  - contradiction.
  - rewrite (remove_singleton h x Hs), Hs. reflexivity.
  - rewrite (remove_cons_snoc h r mid l Hs), Hs. reflexivity.
Qed.

Lemma remove_perm h :
  _storage h <> [] ->
  _storage h ≡ₚ (remove h).1 :: _storage (remove h).2.
Proof.
  intros Hne.
  destruct (storage_cases (_storage h)) as [Hs|[[x Hs]|(r & mid & l & Hs)]].
  - contradiction.
  - rewrite (remove_singleton h x Hs), Hs. reflexivity.
  - rewrite (remove_cons_snoc h r mid l Hs), Hs. simpl.
    rewrite (sift_down_perm _ _ _ _ _ (heapDown_spec _ _ (l :: mid) 0)).
    constructor. rewrite Permutation_app_comm. reflexivity.
Qed.

Lemma insert_length e h :
  length (_storage (insert e h)) = S (length (_storage h)).
Proof. rewrite insert_perm, length_app. simpl. lia. Qed.

Lemma remove_length h :
  _storage h <> [] ->
  S (length (_storage (remove h).2)) = length (_storage h).
Proof.
  intros Hne. pose proof (Permutation_length (remove_perm h Hne)) as Hlen.
  simpl in Hlen. lia.
Qed.

Lemma heap_ordered_short (m : mode) (cmp : comparator_fn T) s :
  length s <= 1 -> heap_ordered m cmp s.
Proof.
  intros Hlen i c x y Hc Hi Hy.
  apply lookup_lt_Some in Hy. lia.
Qed.

Lemma insert_valid h (a : T) :
  total_order (_comparator h) -> valid h -> valid (insert (VElem a) h).
Proof.
  intros Hto [Hel Hord]. unfold heap_property in Hord. split.
  - rewrite insert_perm. apply Forall_app. split; [assumption|].
    constructor; [exact I | constructor].
  - unfold heap_property. rewrite insert_mode, insert_comparator.
    destruct (decide (_storage h = [])) as [Hs|Hs].
    { rewrite (insert_storage_nil _ h Hs). apply heap_ordered_short.
      simpl. lia. }
    rewrite (insert_storage_cons _ h Hs).
    assert (Hpos : 1 <= length (_storage h)).
    { destruct (_storage h); [contradiction | simpl; lia]. }
    eapply (sift_up_ordered _ _ Hto).
    + apply heapUp_spec. rewrite length_app. simpl. lia.
    + apply Forall_app. split; [assumption|].
      constructor; [exact I | constructor].
    + rewrite length_app. simpl. lia.
    + pose proof (proj1 (heap_ordered_parent _ _ _) Hord) as Hpar.
      split.
      * rewrite length_app. cbn [length]. intros j Hj Hne.
        pose proof (parent_lt j ltac:(lia)).
        rewrite !get_app_l by lia. apply Hpar. lia.
      * rewrite length_app. cbn [length]. intros _ j Hj Hjp.
        pose proof (parent_cases j ltac:(lia)). lia.
Qed.

Lemma get_behind_root root last mid j :
  1 <= j < S (length mid) ->
  get (last :: mid) j = get (root :: mid ++ [last]) j.
Proof.
  intros Hj. destruct j as [|j]; [lia|].
  unfold get. simpl. rewrite lookup_app_l by lia. reflexivity.
Qed.

Lemma remove_valid h :
  total_order (_comparator h) -> valid h -> _storage h <> [] ->
  valid (remove h).2.
Proof.
  intros Hto [Hel Hord] Hne. unfold heap_property in Hord.
  unfold valid, heap_property. rewrite remove_mode, remove_comparator.
  destruct (storage_cases (_storage h)) as [Hs|[[x Hs]|(r & mid & l & Hs)]].
  - contradiction.
  - rewrite (remove_singleton h x Hs). simpl. split; [constructor|].
    apply heap_ordered_short. simpl. lia.
  - rewrite (remove_cons_snoc h r mid l Hs). simpl.
    pose proof (heapDown_spec (_mode h) (_comparator h) (l :: mid) 0) as Hsift.
    assert (Hel' : Forall is_elem (l :: mid)).
    { rewrite Hs in Hel. apply Forall_cons in Hel as [_ Hel].
      apply Forall_app in Hel as [Hmid Hl].
      apply Forall_cons. split; [|assumption].
      apply Forall_cons in Hl as [Hl _]. assumption. }
    split.
    + rewrite (sift_down_perm _ _ _ _ _ Hsift). assumption.
    + eapply (sift_down_ordered _ _ Hto); [eassumption | assumption |].
      pose proof (proj1 (heap_ordered_parent _ _ _) Hord) as Hpar.
      rewrite Hs in Hpar. split; [|lia].
      cbn [length]. intros j Hj Hpj.
      pose proof (parent_lt j ltac:(lia)).
      rewrite (get_behind_root r l mid j) by lia.
      rewrite (get_behind_root r l mid ((j - 1) / 2)) by lia.
      apply Hpar. cbn [length]. rewrite length_app. cbn [length]. lia.
Qed.

(** In a heap-ordered storage the root is not worse than any element. *)
Lemma root_not_worse (m : mode) (cmp : comparator_fn T) s j :
  total_order cmp -> Forall is_elem s -> heap_ordered m cmp s ->
  j < length s ->
  not_worse m cmp (get s 0) (get s j) = true.
Proof.
  intros Hto Hel Hord.
  pose proof (proj1 (heap_ordered_parent _ _ _) Hord) as Hpar.
  induction j as [j IH] using lt_wf_ind. intros Hj.
  destruct (decide (j = 0)) as [->|Hj0].
  - apply (not_worse_refl m cmp Hto), elem_get; assumption.
  - pose proof (parent_lt j ltac:(lia)) as Hp.
    apply (not_worse_trans m cmp Hto _ (get s ((j - 1) / 2)));
      try (apply elem_get; (assumption || lia)).
    + apply IH; lia.
    + apply Hpar. lia.
Qed.
End Operations.

(** ** Sequences of calls *)

Section Traces.
Context {T : Type}.
Implicit Types (h : heap T) (cs : list (call T)) (xs : list T).

Lemma exec_mode c h : _mode (exec c h).2 = _mode h.
Proof. destruct c; simpl; [apply insert_mode | reflexivity | apply remove_mode]. Qed.

Lemma exec_comparator c h : _comparator (exec c h).2 = _comparator h.
Proof.
  destruct c; simpl;
    [apply insert_comparator | reflexivity | apply remove_comparator].
Qed.

Lemma run_cons c cs h :
  run (c :: cs) h =
    ((exec c h).1 :: (run cs (exec c h).2).1, (run cs (exec c h).2).2).
Proof.
  simpl. destruct (exec c h) as [v h1]. simpl.
  destruct (run cs h1) as [vs h2]. reflexivity.
Qed.

Lemma run_app cs1 cs2 h :
  run (cs1 ++ cs2) h =
    ((run cs1 h).1 ++ (run cs2 (run cs1 h).2).1,
     (run cs2 (run cs1 h).2).2).
Proof.
  revert h. induction cs1 as [|c cs1 IH]; intros h.
  - simpl. destruct (run cs2 h). reflexivity.
  - rewrite <- app_comm_cons, !run_cons, IH. reflexivity.
Qed.

Lemma exec_valid c h :
  total_order (_comparator h) -> valid h ->
  match c with Remove => _storage h <> [] | _ => True end ->
  valid (exec c h).2.
Proof.
  intros Hto Hv Hc. destruct c; simpl.
  - apply insert_valid; assumption.
  - assumption.
  - apply remove_valid; assumption.
Qed.

(** The heap order survives every sequence of calls that does not call
    [remove] on an empty storage. *)
Lemma run_valid cs h :
  total_order (_comparator h) -> valid h -> no_remove_on_empty cs h ->
  valid (run cs h).2.
Proof.
  revert h. induction cs as [|c cs IH]; intros h Hto Hv Hcs; [assumption|].
  destruct Hcs as [Hc Hcs]. rewrite run_cons. simpl.
  apply IH; [rewrite exec_comparator; assumption | | assumption].
  apply exec_valid; assumption.
Qed.

Lemma insert_all_snoc xs x h :
  insert_all (xs ++ [x]) h = insert (VElem x) (insert_all xs h).
Proof. unfold insert_all. rewrite foldl_snoc. reflexivity. Qed.

Lemma insert_all_mode xs h : _mode (insert_all xs h) = _mode h.
Proof.
  induction xs as [|x xs IH] using rev_ind; [reflexivity|].
  rewrite insert_all_snoc, insert_mode. assumption.
Qed.

Lemma insert_all_comparator xs h :
  _comparator (insert_all xs h) = _comparator h.
Proof.
  induction xs as [|x xs IH] using rev_ind; [reflexivity|].
  rewrite insert_all_snoc, insert_comparator. assumption.
Qed.

Lemma insert_all_perm xs h :
  _storage (insert_all xs h) ≡ₚ _storage h ++ map VElem xs.
Proof.
  induction xs as [|x xs IH] using rev_ind.
  - simpl. rewrite app_nil_r. reflexivity.
  - rewrite insert_all_snoc, insert_perm, IH, map_app, app_assoc.
    reflexivity.
Qed.

Lemma insert_all_valid xs h :
  total_order (_comparator h) -> valid h -> valid (insert_all xs h).
Proof.
  intros Hto Hv. induction xs as [|x xs IH] using rev_ind; [assumption|].
  rewrite insert_all_snoc. apply insert_valid; [|assumption].
  rewrite insert_all_comparator. assumption.
Qed.

Lemma run_inserts xs h :
  (run (map Insert xs) h).2 = insert_all xs h.
Proof.
  revert h. induction xs as [|x xs IH]; intros h; [reflexivity|].
  cbn [map]. rewrite run_cons. simpl. apply IH.
Qed.

Lemma elems_map (l : list (value T)) :
  Forall is_elem l -> exists xs, l = map VElem xs.
Proof.
  induction 1 as [|v l Hv _ [xs ->]]; [exists []; reflexivity|].
  destruct v as [| |x]; try contradiction.
  exists (x :: xs). reflexivity.
Qed.

Lemma map_VElem_elems xs : Forall is_elem (map (@VElem T) xs).
Proof. induction xs; constructor; [exact I | assumption]. Qed.

Lemma map_VElem_inj xs ys : map (@VElem T) xs = map VElem ys -> xs = ys.
Proof.
  revert ys. induction xs as [|x xs IH]; intros [|y ys] H;
    simplify_eq/=; [reflexivity|]. f_equal. apply IH. assumption.
Qed.

Lemma map_VElem_perm xs ys : map (@VElem T) xs ≡ₚ map VElem ys -> xs ≡ₚ ys.
Proof.
  intros Hp. apply Permutation_map_inv in Hp as (zs & Heq & Hp).
  apply map_VElem_inj in Heq as ->. symmetry. assumption.
Qed.

(** The traversal reaches the sentinel after as many calls as the
    storage holds elements, plus one. *)
Lemma drain_returns fuel h :
  Forall is_elem (_storage h) -> length (_storage h) < fuel ->
  exists out h', drain fuel h = Some (out, h').
Proof.
  revert h. induction fuel as [|fuel IH]; intros h Hel Hlen; [lia|].
  cbn [drain].
  destruct (decide (_storage h = [])) as [Hs|Hs].
  - rewrite (remove_nil h Hs). simpl. eauto.
  - pose proof (remove_root h Hs) as Hroot.
    pose proof (remove_perm h Hs) as Hperm.
    destruct (remove h) as [el h1]. simpl in *.
    assert (Hel1 : Forall is_elem (el :: _storage h1)).
    { rewrite <- Hperm. assumption. }
    apply Forall_cons in Hel1 as [Hel0 Hel1].
    destruct el as [| |x]; try contradiction. simpl.
    destruct (IH h1 Hel1) as (out & h' & ->).
    + apply Permutation_length in Hperm. simpl in Hperm. lia.
    + eauto.
Qed.

(** What the traversal returns: the stored elements, each once. *)
Lemma drain_perm fuel h out h' :
  Forall is_elem (_storage h) -> drain fuel h = Some (out, h') ->
  out ≡ₚ _storage h.
Proof.
  revert h out. induction fuel as [|fuel IH]; intros h out Hel Hd;
    [discriminate|].
  cbn [drain] in Hd.
  destruct (decide (_storage h = [])) as [Hs|Hs].
  - rewrite (remove_nil h Hs) in Hd. simpl in Hd. simplify_eq.
    rewrite Hs. reflexivity.
  - pose proof (remove_root h Hs) as Hroot.
    pose proof (remove_perm h Hs) as Hperm.
    destruct (remove h) as [el h1]. simpl in *.
    assert (Hel1 : Forall is_elem (el :: _storage h1)).
    { rewrite <- Hperm. assumption. }
    apply Forall_cons in Hel1 as [Hel0 Hel1].
    destruct el as [| |x]; try contradiction. simpl in Hd.
    destruct (drain fuel h1) as [[out1 h2]|] eqn:Hd1; [|discriminate].
    simplify_eq. rewrite Hperm. constructor. eapply IH; eassumption.
Qed.

(** ... and in order, when the storage is heap-ordered. *)
Lemma drain_sorted fuel h out h' :
  total_order (_comparator h) -> valid h ->
  drain fuel h = Some (out, h') ->
  StronglySorted
    (fun a b => not_worse (_mode h) (_comparator h) a b = true) out.
Proof.
  revert h out. induction fuel as [|fuel IH]; intros h out Hto Hv Hd;
    [discriminate|].
  cbn [drain] in Hd.
  destruct (decide (_storage h = [])) as [Hs|Hs].
  - rewrite (remove_nil h Hs) in Hd. simpl in Hd. simplify_eq. constructor.
  - pose proof (remove_root h Hs) as Hroot.
    pose proof (remove_perm h Hs) as Hperm.
    pose proof (remove_valid h Hto Hv Hs) as Hv1.
    pose proof (remove_mode h) as Hm.
    pose proof (remove_comparator h) as Hc.
    destruct (remove h) as [el h1]. simpl in *.
    destruct (is_empty_sentinel el); [simplify_eq; constructor|].
    destruct (drain fuel h1) as [[out1 h2]|] eqn:Hd1; [|discriminate].
    simplify_eq. constructor.
    + rewrite <- Hm, <- Hc. apply (IH h1); [rewrite Hc| |]; assumption.
    + destruct Hv as [Hel Hord].
      assert (Hsub : Forall (fun v => v ∈ _storage h) out1).
      { apply Forall_forall. intros v Hin. rewrite Hperm.
        right. rewrite <- (drain_perm _ _ _ _ (proj1 Hv1) Hd1). assumption. }
      eapply Forall_impl; [exact Hsub|].
      intros v [j Hj]%list_elem_of_lookup.
      rewrite <- (get_lookup _ _ _ Hj).
      apply root_not_worse; try assumption.
      eapply lookup_lt_Some. eassumption.
Qed.

Lemma sorted_for_map (m : mode) (cmp : comparator_fn T) xs :
  StronglySorted (fun a b => not_worse m cmp a b = true) (map VElem xs) ->
  sorted_for m cmp xs.
Proof.
  intros H. unfold sorted_for.
  assert (Hs : StronglySorted
    (fun a b => not_worse m cmp (VElem a) (VElem b) = true) xs).
  { induction xs as [|x xs IH]; [constructor|].
    cbn [map] in H. apply StronglySorted_inv in H as [Hs Hall].
    constructor; [apply IH; assumption|].
    apply Forall_map in Hall. assumption. }
  destruct m; assumption.
Qed.
End Traces.

(** ** Facts used by the examples *)

Lemma subtract_total_order : total_order subtract.
Proof.
  split; intros; unfold subtract in *; simpl in *.
  - lia.
  - destruct (Z.leb_spec 0 (x - y)), (Z.leb_spec (y - x) 0);
      reflexivity || lia.
  - lia.
Qed.

Section Construction.
Context {T : Type}.
Variable naive : comparator_fn T.

Lemma Factory_Return mode_arg cmp_arg h :
  Factory naive mode_arg cmp_arg = Return h ->
  h = new_heap (_mode h) (_comparator h).
Proof.
  unfold Factory, init.
  destruct (default_param _ mode_arg); try discriminate.
  destruct (default_param _ cmp_arg); try discriminate.
  intros [= <-]. reflexivity.
Qed.

(** The outcomes of [init], by the shape of its two arguments. *)
Lemma init_invalid_mode (mode_arg cmp_arg : jsarg T) :
  init mode_arg cmp_arg = Throw (Error "Invalid mode")
  <-> ~ (exists m, mode_arg = JMode m).
Proof.
  destruct mode_arg as [|sm|m|fm]; simpl.
  1, 2, 4: split; [intros _ [m Hm]; discriminate Hm | reflexivity].
  split; [|intros Hn; exfalso; apply Hn; eauto].
  destruct cmp_arg; discriminate.
Qed.

Lemma init_invalid_comparator (mode_arg cmp_arg : jsarg T) :
  init mode_arg cmp_arg = Throw (Error "Invalid comparator")
  <-> (exists m, mode_arg = JMode m) /\ ~ (exists f, cmp_arg = JFunction f).
Proof.
  destruct mode_arg as [|sm|m|fm]; simpl.
  1, 2, 4: split; [discriminate | intros [[m Hm] _]; discriminate Hm].
  destruct cmp_arg as [|sc|mc|fc].
  1, 2, 3: split; [intros _; split; [eauto | intros [f Hf]; discriminate Hf]
                  | reflexivity].
  split; [discriminate | intros [_ Hn]; exfalso; apply Hn; eauto].
Qed.

Lemma init_return (mode_arg cmp_arg : jsarg T) :
  (exists h, init mode_arg cmp_arg = Return h)
  <-> exists m f,
        mode_arg = JMode m /\ cmp_arg = JFunction f /\
        init mode_arg cmp_arg = Return (new_heap m f).
Proof.
  split; [|intros (m & f & _ & _ & H); eauto].
  destruct mode_arg as [|sm|m|fm]; simpl.
  1, 2, 4: intros [h H]; discriminate H.
  destruct cmp_arg as [|sc|mc|fc]; simpl.
  1, 2, 3: intros [h H]; discriminate H.
  intros _. exists m, fc. eauto.
Qed.

Lemma new_heap_valid (m : mode) (f : comparator_fn T) : valid (new_heap m f).
Proof.
  split; [constructor|]. apply heap_ordered_short. simpl. lia.
Qed.
End Construction.

Section DrainFuel.
Context {T : Type}.

Lemma drain_mono fuel fuel' (h : heap T) r :
  drain fuel h = Some r -> fuel <= fuel' -> drain fuel' h = Some r.
Proof.
  revert fuel' h r. induction fuel as [|fuel IH]; intros fuel' h r Hd Hle;
    [discriminate|].
  destruct fuel' as [|fuel']; [lia|].
  cbn [drain] in *. destruct (remove h) as [el h1].
  destruct (is_empty_sentinel el); [assumption|].
  destruct (drain fuel h1) as [[out h2]|] eqn:Hd1; [|discriminate].
  rewrite (IH fuel' h1 _ Hd1) by lia. assumption.
Qed.

Lemma run_removes k (h : heap T) :
  Forall is_elem (_storage h) -> k <= length (_storage h) ->
  Forall is_elem (_storage (run (replicate k Remove) h).2) /\
  length (_storage (run (replicate k Remove) h).2) = length (_storage h) - k.
Proof.
  revert h. induction k as [|k IH]; intros h Hel Hk.
  - simpl. split; [assumption | lia].
  - cbn [replicate]. rewrite run_cons. cbn [exec snd].
    assert (Hs : _storage h <> []).
    { destruct (_storage h); [simpl in Hk; lia | discriminate]. }
    pose proof (remove_perm h Hs) as Hperm.
    pose proof (remove_length h Hs) as Hlen.
    assert (Hel1 : Forall is_elem (_storage (remove h).2)).
    { rewrite Hperm in Hel. apply Forall_cons in Hel as [_ Hel].
      assumption. }
    destruct (IH (remove h).2 Hel1 ltac:(lia)) as [IH1 IH2].
    split; [assumption | lia].
Qed.
End DrainFuel.

(** * The properties of the specification *)

(** ** Sorted extraction *)

(** C1. For every mode and every comparator that is a consistent total
    order, on a heap as [Factory] returns it: after inserting any finite
    sequence [xs] of elements one at a time, calling [remove] until it
    yields the empty sentinel returns (with any number of calls allowed
    beyond [length xs]) a sequence [out] that holds the elements of [xs]
    with their multiplicities and is in ascending order in Min mode,
    descending order in Max mode. *)
Theorem sorted_extraction {T : Type} (naive : comparator_fn T)
    (mode_arg cmp_arg : jsarg T) (h : heap T) (xs : list T) :
  Factory naive mode_arg cmp_arg = Return h ->
  total_order (_comparator h) ->
  exists out : list T,
    (forall fuel, length xs < fuel ->
       exists h', drain fuel (insert_all xs h) = Some (map VElem out, h')) /\
    out ≡ₚ xs /\
    sorted_for (_mode h) (_comparator h) out.
Proof.
  intros Hf Hto.
  apply Factory_Return in Hf.
  assert (Hv : valid h) by (rewrite Hf; apply new_heap_valid).
  assert (Hs : _storage h = []) by (rewrite Hf; reflexivity).
  pose proof (insert_all_valid xs h Hto Hv) as Hv1.
  pose proof (insert_all_perm xs h) as Hp1. rewrite Hs in Hp1. simpl in Hp1.
  assert (Hlen : length (_storage (insert_all xs h)) = length xs).
  { rewrite Hp1. apply length_map. }
  destruct (drain_returns (S (length xs)) (insert_all xs h) (proj1 Hv1))
    as (outv & h' & Hd); [lia|].
  pose proof (drain_perm _ _ _ _ (proj1 Hv1) Hd) as Hperm.
  assert (Hel : Forall is_elem outv).
  { rewrite Hperm. exact (proj1 Hv1). }
  destruct (elems_map outv Hel) as [out ->].
  exists out. split; [|split].
  - intros fuel Hfuel. exists h'. apply (drain_mono _ _ _ _ Hd). lia.
  - apply map_VElem_perm. rewrite Hperm. assumption.
  - apply sorted_for_map.
    rewrite <- (insert_all_mode xs h), <- (insert_all_comparator xs h).
    apply (drain_sorted _ _ _ _ ltac:(rewrite insert_all_comparator; exact Hto)
             Hv1 Hd).
Qed.

Lemma sorted_extraction_witness :
  exists out : list Z,
    (forall fuel, length scenario < fuel ->
       exists h',
         drain fuel (insert_all scenario (new_heap MinHeap subtract))
         = Some (map VElem out, h')) /\
    out ≡ₚ scenario /\
    sorted_for MinHeap subtract out.
Proof.
  apply (sorted_extraction subtract (JMode MinHeap) (JFunction subtract)
           (new_heap MinHeap subtract) scenario).
  - reflexivity.
  - apply subtract_total_order.
Defined.

(** The two integer scenarios of the test suite. *)
Example scenario_min :
  option_map fst (drain 7 (insert_all scenario (new_heap MinHeap subtract)))
  = Some (map VElem [-1; 1; 2; 5; 10; 19]%Z).
Proof. reflexivity. Qed.

Example scenario_max :
  option_map fst (drain 7 (insert_all scenario (new_heap MaxHeap subtract)))
  = Some (map VElem [19; 10; 5; 2; 1; -1]%Z).
Proof. reflexivity. Qed.

(** ** The heap property *)

(** X3. Under a consistent total order, the heap property holds after
    every sequence of calls on a new heap in which [remove] is not called
    on an empty storage. *)
Theorem heap_property_preserved {T : Type} (m : mode) (cmp : comparator_fn T)
    (cs : list (call T)) :
  total_order cmp ->
  no_remove_on_empty cs (new_heap m cmp) ->
  heap_property (run cs (new_heap m cmp)).2.
Proof.
  intros Hto Hcs.
  apply (run_valid cs (new_heap m cmp) Hto (new_heap_valid m cmp) Hcs).
Qed.

(** C2. The claim fails on the code: with the comparator
    [(a, b) => a - b], a consistent total order on the integers, and Min
    mode, [remove()] on the new heap followed by [insert(5)] leaves the
    storage [[5, undefined]], where [comparator(storage[0], storage[1])]
    is [NaN] and not [<= 0]. *)
Theorem heap_property_lost_after_remove_on_empty :
  total_order subtract /\
  _storage (run [Remove; Insert 5%Z] (new_heap MinHeap subtract)).2
    = [VElem 5%Z; VUndefined] /\
  ~ heap_property (run [Remove; Insert 5%Z] (new_heap MinHeap subtract)).2.
Proof.
  split; [apply subtract_total_order|]. split; [reflexivity|].
  intros H.
  specialize (H 0 1 (VElem 5%Z) VUndefined (or_introl eq_refl)
                eq_refl eq_refl).
  discriminate H.
Qed.

(** ** Empty heaps *)

(** C3. The claim fails on the code: [remove()] on a new heap returns
    [undefined] without an error, but it modifies the storage, which then
    holds one slot, [undefined]: the heap is neither unchanged nor a heap
    of elements. *)
Theorem remove_on_empty_modifies_storage {T : Type} (m : mode)
    (cmp : comparator_fn T) :
  _storage (new_heap m cmp) = [] /\
  remove (new_heap m cmp)
    = (VUndefined, {| _mode := m; _comparator := cmp;
                      _storage := [VUndefined] |}) /\
  (remove (new_heap m cmp)).2 <> new_heap m cmp /\
  ~ valid (remove (new_heap m cmp)).2.
Proof.
  split; [reflexivity|]. split; [reflexivity|]. split.
  - intros H. discriminate H.
  - intros [Hel _]. simpl in Hel. apply Forall_cons in Hel as [Hel _].
    exact Hel.
Qed.

(** C4. On a newly constructed heap [peek()] returns [false] and
    [remove()] returns [undefined]: each is an empty sentinel and each is
    falsy, whatever the truthiness of the caller's elements. *)
Theorem empty_heap_sentinels {T : Type} (truthy : T -> bool)
    (naive : comparator_fn T) (mode_arg cmp_arg : jsarg T) (h : heap T) :
  Factory naive mode_arg cmp_arg = Return h ->
  peek h = VFalse /\
  (remove h).1 = VUndefined /\
  is_empty_sentinel (peek h) = true /\
  is_empty_sentinel (remove h).1 = true /\
  ToBoolean truthy (peek h) = false /\
  ToBoolean truthy (remove h).1 = false.
Proof.
  intros Hf. apply Factory_Return in Hf. rewrite Hf.
  repeat split; reflexivity.
Qed.

Lemma empty_heap_sentinels_witness :
  peek (new_heap MinHeap subtract) = VFalse /\
  (remove (new_heap MinHeap subtract)).1 = VUndefined /\
  is_empty_sentinel (peek (new_heap MinHeap subtract)) = true /\
  is_empty_sentinel (remove (new_heap MinHeap subtract)).1 = true /\
  ToBoolean (fun z => negb (z =? 0)%Z) (peek (new_heap MinHeap subtract))
    = false /\
  ToBoolean (fun z => negb (z =? 0)%Z) (remove (new_heap MinHeap subtract)).1
    = false.
Proof.
  apply (empty_heap_sentinels (fun z => negb (z =? 0)%Z) subtract
           JUndefined JUndefined (new_heap MinHeap subtract)).
  reflexivity.
Defined.

(** C10. [remove()] on an empty storage returns [undefined] and leaves
    one slot holding [undefined]; [peek()] then returns [undefined], not
    [false]; a second [remove()] returns [undefined] and empties the
    storage again. *)
Theorem remove_on_empty_leaves_undefined {T : Type} (h : heap T) :
  _storage h = [] ->
  (remove h).1 = VUndefined /\
  _storage (remove h).2 = [VUndefined] /\
  peek (remove h).2 = VUndefined /\
  peek (remove h).2 <> VFalse /\
  (remove (remove h).2).1 = VUndefined /\
  _storage (remove (remove h).2).2 = [].
Proof.
  intros Hs. rewrite (remove_nil h Hs). simpl.
  repeat split; try reflexivity. discriminate.
Qed.

Lemma remove_on_empty_leaves_undefined_witness :
  (remove (new_heap MaxHeap subtract)).1 = VUndefined /\
  _storage (remove (new_heap MaxHeap subtract)).2 = [VUndefined] /\
  peek (remove (new_heap MaxHeap subtract)).2 = VUndefined /\
  peek (remove (new_heap MaxHeap subtract)).2 <> VFalse /\
  (remove (remove (new_heap MaxHeap subtract)).2).1 = VUndefined /\
  _storage (remove (remove (new_heap MaxHeap subtract)).2).2 = [].
Proof.
  apply (remove_on_empty_leaves_undefined (new_heap MaxHeap subtract)).
  reflexivity.
Defined.

(** ** Construction *)

(** C5, as stated, fails on the code at [Factory('bogus', 'nope')]: the
    comparator argument is not callable, yet construction does not fail
    with "Invalid comparator"; the mode is validated first and the call
    fails with "Invalid mode". *)
Lemma invalid_comparator_not_iff :
  ~ (exists f : comparator_fn Z, JString "nope" = JFunction f) /\
  Factory subtract (JString "bogus") (JString "nope")
    = Throw (Error "Invalid mode") /\
  Factory subtract (JString "bogus") (JString "nope")
    <> Throw (Error "Invalid comparator").
Proof.
  split; [|split].
  - intros [f Hf]. discriminate Hf.
  - reflexivity.
  - discriminate.
Qed.

(** C5, amended.  An omitted ([undefined]) argument is first replaced by
    its default, [MinHeap] or the default comparator.  Construction then
    fails with "Invalid mode" exactly when the mode is not one of the two
    constants; it fails with "Invalid comparator" exactly when the mode is
    one of them and the comparator is not a function; and [Factory()]
    returns an empty heap in Min mode with the default comparator. *)
Theorem construction_validation {T : Type} (naive : comparator_fn T)
    (mode_arg cmp_arg : jsarg T) :
  let mode_used := default_param (JMode MinHeap) mode_arg in
  let cmp_used := default_param (JFunction naive) cmp_arg in
  (Factory naive mode_arg cmp_arg = Throw (Error "Invalid mode")
   <-> ~ (exists m, mode_used = JMode m)) /\
  (Factory naive mode_arg cmp_arg = Throw (Error "Invalid comparator")
   <-> (exists m, mode_used = JMode m) /\
       ~ (exists f, cmp_used = JFunction f)) /\
  ((exists h, Factory naive mode_arg cmp_arg = Return h)
   <-> exists m f,
         mode_used = JMode m /\ cmp_used = JFunction f /\
         Factory naive mode_arg cmp_arg = Return (new_heap m f)) /\
  Factory naive JUndefined JUndefined = Return (new_heap MinHeap naive).
Proof.
  cbv zeta. unfold Factory.
  split; [apply init_invalid_mode|].
  split; [apply init_invalid_comparator|].
  split; [apply init_return | reflexivity].
Qed.

(** ** peek *)

(** What the code keeps of the claim on [peek]: on a non-empty heap of
    the data model (elements in heap order, under a consistent total
    order) [peek()] returns the root, which is a stored element not worse
    than any stored element: a minimum in Min mode, a maximum in Max
    mode.  The call leaves the heap as it is, so any number of [peek()]
    calls return the same element and the calls after them return what
    they would have returned without them. *)
Theorem peek_root {T : Type} (h : heap T) :
  total_order (_comparator h) -> valid h -> _storage h <> [] ->
  peek h = get (_storage h) 0 /\
  peek h ∈ _storage h /\
  (forall y, y ∈ _storage h ->
     match _mode h with
     | MinHeap => le0 (_comparator h (peek h) y) = true
     | MaxHeap => ge0 (_comparator h (peek h) y) = true
     end) /\
  exec Peek h = (peek h, h) /\
  (forall n cs,
     run (replicate n Peek ++ cs) h
     = (replicate n (peek h) ++ (run cs h).1, (run cs h).2)).
Proof.
  intros Hto [Hel Hord] Hs.
  assert (Hpeek : peek h = get (_storage h) 0).
  { unfold peek. destruct (decide _) as [Hl|_]; [|reflexivity].
    destruct (_storage h); [contradiction | discriminate Hl]. }
  assert (Hlen : 0 < length (_storage h)).
  { destruct (_storage h); [contradiction | simpl; lia]. }
  split; [assumption|]. split; [|split; [|split]].
  - rewrite Hpeek. apply list_elem_of_lookup. exists 0.
    apply lookup_get. assumption.
  - intros y [j Hj]%list_elem_of_lookup.
    rewrite Hpeek, <- (get_lookup _ _ _ Hj).
    pose proof (root_not_worse (_mode h) (_comparator h) (_storage h) j
                  Hto Hel Hord (lookup_lt_Some _ _ _ Hj)) as Hroot.
    unfold not_worse in Hroot. destruct (_mode h); assumption.
  - reflexivity.
  - intros n cs. induction n as [|n IH].
    + simpl. destruct (run cs h). reflexivity.
    + cbn [replicate]. rewrite <- app_comm_cons, run_cons.
      cbn [exec fst snd]. rewrite IH. reflexivity.
Qed.

Lemma peek_root_witness :
  let h := insert_all scenario (new_heap MinHeap subtract) in
  peek h = get (_storage h) 0 /\
  peek h ∈ _storage h /\
  (forall y, y ∈ _storage h ->
     match _mode h with
     | MinHeap => le0 (_comparator h (peek h) y) = true
     | MaxHeap => ge0 (_comparator h (peek h) y) = true
     end) /\
  exec Peek h = (peek h, h) /\
  (forall n cs,
     run (replicate n Peek ++ cs) h
     = (replicate n (peek h) ++ (run cs h).1, (run cs h).2)).
Proof.
  apply (peek_root (insert_all scenario (new_heap MinHeap subtract))).
  - apply subtract_total_order.
  - apply insert_all_valid;
      [apply subtract_total_order | apply new_heap_valid].
  - vm_compute. discriminate.
Defined.

(** C6. The claim fails on the code for a heap that is not empty: with
    the comparator [(a, b) => a - b], a consistent total order on the
    integers, and Min mode, the calls [remove()], [insert(1)],
    [insert(1)], [remove()], [insert(2)] on a new heap leave the storage
    [[2, 1, undefined]]: [peek()] returns [2] although [1] is stored, and
    [comparator(2, 1)] is positive, so the root is not the minimum.  The
    first call is a [remove()] on the empty storage, which writes
    [undefined] into it. *)
Theorem peek_not_minimum_after_remove_on_empty :
  total_order subtract /\
  _storage (run [Remove; Insert 1; Insert 1; Remove; Insert 2]%Z
              (new_heap MinHeap subtract)).2
    = [VElem 2; VElem 1; VUndefined]%Z /\
  peek (run [Remove; Insert 1; Insert 1; Remove; Insert 2]%Z
          (new_heap MinHeap subtract)).2
    = VElem 2%Z /\
  VElem 1%Z ∈ _storage (run [Remove; Insert 1; Insert 1; Remove; Insert 2]%Z
                          (new_heap MinHeap subtract)).2 /\
  le0 (subtract
         (peek (run [Remove; Insert 1; Insert 1; Remove; Insert 2]%Z
                  (new_heap MinHeap subtract)).2)
         (VElem 1%Z))
    = false /\
  ~ (forall y,
       y ∈ _storage (run [Remove; Insert 1; Insert 1; Remove; Insert 2]%Z
                       (new_heap MinHeap subtract)).2 ->
       le0 (subtract
              (peek (run [Remove; Insert 1; Insert 1; Remove; Insert 2]%Z
                       (new_heap MinHeap subtract)).2)
              y)
       = true).
Proof.
  split; [apply subtract_total_order|].
  assert (Hs : _storage (run [Remove; Insert 1; Insert 1; Remove; Insert 2]%Z
                           (new_heap MinHeap subtract)).2
               = [VElem 2; VElem 1; VUndefined]%Z) by reflexivity.
  assert (Hp : peek (run [Remove; Insert 1; Insert 1; Remove; Insert 2]%Z
                       (new_heap MinHeap subtract)).2
               = VElem 2%Z) by reflexivity.
  rewrite Hs, Hp.
  split; [reflexivity|]. split; [reflexivity|]. split.
  - apply list_elem_of_lookup. exists 1. reflexivity.
  - split; [reflexivity|].
    intros H. specialize (H (VElem 1%Z)).
    assert (Hin : VElem 1%Z ∈ [VElem 2; VElem 1; VUndefined]%Z).
    { apply list_elem_of_lookup. exists 1. reflexivity. }
    specialize (H Hin). discriminate H.
Qed.

(** ** Size *)

(** C7. After [n] inserts followed by [k <= n] removes on a new heap the
    storage holds exactly [n - k] elements, and the traversal extracts
    exactly [n - k] elements from it; every insert grows the storage by
    one and every remove on a non-empty storage shrinks it by one. *)
Theorem size_conservation {T : Type} (m : mode) (cmp : comparator_fn T)
    (xs : list T) (k : nat) :
  k <= length xs ->
  let h := (run (map Insert xs ++ replicate k Remove) (new_heap m cmp)).2 in
  length (_storage h) = length xs - k /\
  (exists out h',
     drain (S (length xs - k)) h = Some (out, h') /\
     length out = length xs - k) /\
  (forall e (h0 : heap T),
     length (_storage (insert e h0)) = S (length (_storage h0))) /\
  (forall h0 : heap T, _storage h0 <> [] ->
     S (length (_storage (remove h0).2)) = length (_storage h0)).
Proof.
  intros Hk. cbv zeta. rewrite run_app. cbn [snd].
  rewrite run_inserts.
  pose proof (insert_all_perm xs (new_heap m cmp)) as Hp. simpl in Hp.
  assert (Hel : Forall is_elem (_storage (insert_all xs (new_heap m cmp)))).
  { rewrite Hp. apply map_VElem_elems. }
  assert (Hlen : length (_storage (insert_all xs (new_heap m cmp)))
                 = length xs).
  { rewrite Hp. apply length_map. }
  destruct (run_removes k _ Hel ltac:(lia)) as [Hel' Hlen'].
  rewrite Hlen in Hlen'.
  split; [assumption|]. split; [|split].
  - destruct (drain_returns (S (length xs - k)) _ Hel' ltac:(lia))
      as (out & h' & Hd).
    exists out, h'. split; [assumption|].
    rewrite (drain_perm _ _ _ _ Hel' Hd). assumption.
  - intros e h0. apply insert_length.
  - intros h0. apply remove_length.
Qed.

Lemma size_conservation_witness :
  let h := (run (map Insert scenario ++ replicate 2 Remove)
              (new_heap MaxHeap subtract)).2 in
  length (_storage h) = length scenario - 2 /\
  (exists out h',
     drain (S (length scenario - 2)) h = Some (out, h') /\
     length out = length scenario - 2) /\
  (forall e (h0 : heap Z),
     length (_storage (insert e h0)) = S (length (_storage h0))) /\
  (forall h0 : heap Z, _storage h0 <> [] ->
     S (length (_storage (remove h0).2)) = length (_storage h0)).
Proof.
  apply (size_conservation MaxHeap subtract scenario 2).
  simpl. lia.
Defined.

(** ** The two algorithms *)

(** C8. [insert(element)] keeps the mode and the comparator, and its
    storage is the one the sift-up of the specification produces from the
    storage with [element] appended, started at the last index: parent at
    [floor((i-1)/2)], result negated in Max mode, stop (no swap) on an
    adjusted result [>= 0], swap and go on from the parent otherwise, end
    at index 0. *)
Theorem insert_sifts_up {T : Type} (element : value T) (h : heap T) :
  _mode (insert element h) = _mode h /\
  _comparator (insert element h) = _comparator h /\
  forall s',
    sift_up_spec (_mode h) (_comparator h)
      (_storage h ++ [element]) (length (_storage h)) s'
    <-> s' = _storage (insert element h).
Proof.
  split; [apply insert_mode|]. split; [apply insert_comparator|].
  assert (Hspec : sift_up_spec (_mode h) (_comparator h)
            (_storage h ++ [element]) (length (_storage h))
            (_storage (insert element h))).
  { destruct (decide (_storage h = [])) as [Hs|Hs].
    - rewrite (insert_storage_nil _ h Hs), Hs. apply sift_up_root.
    - rewrite (insert_storage_cons _ h Hs). apply heapUp_spec.
      rewrite length_app. simpl.
      destruct (_storage h); [contradiction | simpl; lia]. }
  intros s'. split.
  - intros H. exact (sift_up_spec_fun _ _ _ _ _ _ H Hspec).
  - intros ->. assumption.
Qed.

(** At a tie the inserted element stays below its parent. *)
Example insert_tie :
  _storage (insert_all [3; 3]%Z (new_heap MinHeap (fun a b =>
     match a, b with
     | VElem x, VElem y => Num (x / 2 - y / 2)
     | _, _ => NaN
     end)))
  = [VElem 3%Z; VElem 3%Z]
  /\ _storage (insert (VElem 2%Z) (insert (VElem 3%Z) (new_heap MinHeap
       (fun a b =>
          match a, b with
          | VElem x, VElem y => Num (x / 2 - y / 2)
          | _, _ => NaN
          end))))
     = [VElem 3%Z; VElem 2%Z].
Proof. split; reflexivity. Qed.

(** C9. [remove()] on a storage of exactly one element returns it and
    leaves the storage empty; on a storage of two or more elements it
    returns the root, and the new storage is the one the sift-down of the
    specification produces from the shortened storage with the last
    element in the root position, started at index 0: stop when the left
    child is out of bounds, compare against [chosen_child], result negated
    in Min mode, stop on an adjusted result [>= 0], swap and go on from
    the child otherwise. *)
Theorem remove_sifts_down {T : Type} (m : mode) (cmp : comparator_fn T)
    (root last : value T) (mid : list (value T)) :
  remove (Heap m cmp [root]) = (root, Heap m cmp []) /\
  (remove (Heap m cmp (root :: mid ++ [last]))).1 = root /\
  _mode (remove (Heap m cmp (root :: mid ++ [last]))).2 = m /\
  _comparator (remove (Heap m cmp (root :: mid ++ [last]))).2 = cmp /\
  length (last :: mid) + 1 = length (root :: mid ++ [last]) /\
  forall s',
    sift_down_spec m cmp (last :: mid) 0 s'
    <-> s' = _storage (remove (Heap m cmp (root :: mid ++ [last]))).2.
Proof.
  split; [reflexivity|].
  rewrite (remove_cons_snoc (Heap m cmp (root :: mid ++ [last]))
             root mid last eq_refl).
  cbn [fst snd _mode _comparator _storage with_storage].
  split; [reflexivity|]. split; [reflexivity|]. split; [reflexivity|].
  split.
  { cbn [length]. rewrite length_app. cbn [length]. lia. }
  intros s'. split.
  - intros H. exact (sift_down_spec_fun _ _ _ _ _ _ H (heapDown_spec m cmp _ 0)).
  - intros ->. apply heapDown_spec.
Qed.

(** In Min mode, with both children in bounds and equal, the right child
    is the one compared against. *)
Example chosen_child_tie :
  chosen_child MinHeap subtract [VElem 9; VElem 4; VElem 4]%Z 0 = 2 /\
  chosen_child MaxHeap subtract [VElem 1; VElem 4; VElem 4]%Z 0 = 1 /\
  _heapDown MinHeap subtract [VElem 9; VElem 4; VElem 4; VElem 7]%Z 0
  = [VElem 4; VElem 4; VElem 9; VElem 7]%Z.
Proof. repeat split; reflexivity. Qed.

(** * Further properties of the code *)

(** ** Elements are neither lost nor made up *)

(** X1. Over any sequence of calls that never calls [remove] on an empty
    storage, and whatever the comparator does, the elements are
    conserved: what is stored at the end together with what the [remove]
    calls returned is, up to order, what was stored at the start together
    with what was inserted. *)
Theorem calls_conserve_elements {T : Type} (cs : list (call T)) (h : heap T) :
  no_remove_on_empty cs h ->
  _storage (run cs h).2 ++ removed cs (run cs h).1
  ≡ₚ _storage h ++ map VElem (inserted cs).
Proof.
  revert h. induction cs as [|c cs IH]; intros h Hcs.
  - simpl. rewrite !app_nil_r. reflexivity.
  - destruct Hcs as [Hc Hcs]. rewrite run_cons. cbn [fst snd].
    specialize (IH _ Hcs). destruct c as [x| |]; cbn [removed inserted map].
    + rewrite IH. cbn [exec snd]. rewrite insert_perm, <- app_assoc.
      reflexivity.
    + rewrite IH. reflexivity.
    + cbn [exec] in *. rewrite <- Permutation_middle, IH.
      pose proof (remove_perm h Hc) as Hp.
      apply (Permutation_app_tail (map VElem (inserted cs))) in Hp.
      symmetry. exact Hp.
Qed.

Lemma calls_conserve_elements_witness :
  _storage (run [Insert 5; Insert 1; Remove; Peek; Insert 3]%Z
              (new_heap MaxHeap subtract)).2
  ++ removed [Insert 5; Insert 1; Remove; Peek; Insert 3]%Z
       (run [Insert 5; Insert 1; Remove; Peek; Insert 3]%Z
          (new_heap MaxHeap subtract)).1
  ≡ₚ _storage (new_heap MaxHeap subtract)
     ++ map VElem (inserted [Insert 5; Insert 1; Remove; Peek; Insert 3]%Z).
Proof.
  apply (calls_conserve_elements
           [Insert 5; Insert 1; Remove; Peek; Insert 3]%Z
           (new_heap MaxHeap subtract)).
  vm_compute. repeat split; discriminate.
Defined.

Lemma run_fields {T : Type} (cs : list (call T)) (h : heap T) :
  _mode (run cs h).2 = _mode h /\
  _comparator (run cs h).2 = _comparator h.
Proof.
  revert h. induction cs as [|c cs IH]; intros h; [split; reflexivity|].
  rewrite run_cons. cbn [snd]. destruct (IH (exec c h).2) as [-> ->].
  split; [apply exec_mode | apply exec_comparator].
Qed.

(** ** One extraction *)

(** X2. On a non-empty heap of elements in heap order, under a consistent
    total order, [remove()] returns the element [peek()] shows; it is a
    stored element that is not worse than any stored element; the other
    elements stay in the storage, each once, and in heap order. *)
Theorem remove_returns_best {T : Type} (h : heap T) :
  total_order (_comparator h) -> valid h -> _storage h <> [] ->
  (remove h).1 = peek h /\
  (exists x, (remove h).1 = VElem x) /\
  (forall y, y ∈ _storage h ->
     not_worse (_mode h) (_comparator h) (remove h).1 y = true) /\
  _storage h ≡ₚ (remove h).1 :: _storage (remove h).2 /\
  valid (remove h).2.
Proof.
  intros Hto Hv Hs.
  assert (Hlen : 0 < length (_storage h)).
  { destruct (_storage h); [contradiction | simpl; lia]. }
  assert (Hpeek : peek h = get (_storage h) 0).
  { unfold peek. destruct (decide _) as [Hl|_]; [lia | reflexivity]. }
  rewrite Hpeek, (remove_root h Hs).
  split; [reflexivity|]. split; [|split; [|split]].
  - pose proof (elem_get (_storage h) 0 (proj1 Hv) Hlen) as He.
    destruct (get (_storage h) 0) as [| |x]; try contradiction. eauto.
  - intros y [j Hj]%list_elem_of_lookup.
    rewrite <- (get_lookup _ _ _ Hj).
    apply root_not_worse; [assumption | apply Hv | apply Hv |].
    eapply lookup_lt_Some. eassumption.
  - rewrite <- (remove_root h Hs). apply remove_perm. assumption.
  - apply remove_valid; assumption.
Qed.

Lemma remove_returns_best_witness :
  let h := insert_all scenario (new_heap MaxHeap subtract) in
  (remove h).1 = peek h /\
  (exists x, (remove h).1 = VElem x) /\
  (forall y, y ∈ _storage h ->
     not_worse (_mode h) (_comparator h) (remove h).1 y = true) /\
  _storage h ≡ₚ (remove h).1 :: _storage (remove h).2 /\
  valid (remove h).2.
Proof.
  apply (remove_returns_best (insert_all scenario (new_heap MaxHeap subtract))).
  - apply subtract_total_order.
  - apply insert_all_valid;
      [apply subtract_total_order | apply new_heap_valid].
  - vm_compute. discriminate.
Defined.

(** ** Interleaved calls *)

Lemma heap_property_preserved_witness :
  heap_property
    (run [Insert 5; Insert 1; Remove; Peek; Insert 3; Insert 9; Remove]%Z
       (new_heap MinHeap subtract)).2.
Proof.
  apply (heap_property_preserved MinHeap subtract
           [Insert 5; Insert 1; Remove; Peek; Insert 3; Insert 9; Remove]%Z).
  - apply subtract_total_order.
  - vm_compute. repeat split; discriminate.
Defined.

(** X4. After any sequence of calls on a new heap that never calls
    [remove] on an empty storage, under a consistent total order, the
    traversal returns what is stored, each element once, in ascending
    order in Min mode and descending order in Max mode. *)
Theorem drain_after_calls_sorted {T : Type} (m : mode) (cmp : comparator_fn T)
    (cs : list (call T)) :
  total_order cmp ->
  no_remove_on_empty cs (new_heap m cmp) ->
  exists out : list T,
    (forall fuel, length out < fuel ->
       exists h', drain fuel (run cs (new_heap m cmp)).2
                  = Some (map VElem out, h')) /\
    map VElem out ≡ₚ _storage (run cs (new_heap m cmp)).2 /\
    sorted_for m cmp out.
Proof.
  intros Hto Hcs.
  pose proof (run_valid cs (new_heap m cmp) Hto (new_heap_valid m cmp) Hcs)
    as Hv.
  destruct (run_fields cs (new_heap m cmp)) as [Hm Hc].
  set (h := (run cs (new_heap m cmp)).2) in *. simpl in Hm, Hc.
  destruct (drain_returns (S (length (_storage h))) h (proj1 Hv))
    as (outv & h' & Hd); [lia|].
  pose proof (drain_perm _ _ _ _ (proj1 Hv) Hd) as Hperm.
  assert (Hel : Forall is_elem outv) by (rewrite Hperm; exact (proj1 Hv)).
  destruct (elems_map outv Hel) as [out ->].
  exists out. split; [|split].
  - intros fuel Hfuel. exists h'. apply (drain_mono _ _ _ _ Hd).
    apply Permutation_length in Hperm. rewrite length_map in Hperm. lia.
  - assumption.
  - apply sorted_for_map. rewrite <- Hm, <- Hc.
    apply (drain_sorted _ _ _ _ ltac:(rewrite Hc; exact Hto) Hv Hd).
Qed.

Lemma drain_after_calls_sorted_witness :
  exists out : list Z,
    (forall fuel, length out < fuel ->
       exists h',
         drain fuel
           (run [Insert 5; Insert 1; Remove; Insert 3; Insert 9]%Z
              (new_heap MaxHeap subtract)).2
         = Some (map VElem out, h')) /\
    map VElem out
    ≡ₚ _storage (run [Insert 5; Insert 1; Remove; Insert 3; Insert 9]%Z
                   (new_heap MaxHeap subtract)).2 /\
    sorted_for MaxHeap subtract out.
Proof.
  apply (drain_after_calls_sorted MaxHeap subtract
           [Insert 5; Insert 1; Remove; Insert 3; Insert 9]%Z).
  - apply subtract_total_order.
  - vm_compute. repeat split; discriminate.
Defined.

(** ** The root after an insertion *)

Section RootAfterInsert.
Context {T : Type}.
Variable m : mode.
Variable cmp : comparator_fn T.
Implicit Types (s : list (value T)) (i : nat).

(** The test of [_heapUp] decides "the parent is not worse". *)
Lemma up_test_eq (v p : value T) :
  total_order cmp -> is_elem v -> is_elem p ->
  ge0 (adjusted_up m (cmp v p)) = not_worse m cmp p v.
Proof.
  intros Hto Hv Hp.
  destruct (ge0 (adjusted_up m (cmp v p))) eqn:Hge.
  - symmetry. apply (up_test_true m cmp Hto); assumption.
  - destruct (not_worse m cmp p v) eqn:Hnw; [|reflexivity].
    destruct v as [| |a], p as [| |b]; try contradiction.
    destruct (cmp_signs cmp Hto a b) as (n & k & Hn & Hk & H1 & H2).
    revert Hge Hnw. unfold adjusted_up, not_worse.
    destruct m; rewrite Hn, Hk; simpl; lia.
Qed.

(** The test of [_heapDown] decides "the value is not worse". *)
Lemma down_test_eq (v c : value T) :
  total_order cmp -> is_elem v -> is_elem c ->
  ge0 (adjusted_down m (cmp v c)) = not_worse m cmp v c.
Proof.
  intros Hto Hv Hc.
  destruct (ge0 (adjusted_down m (cmp v c))) eqn:Hge.
  - symmetry. apply (down_test_true m cmp Hto); assumption.
  - destruct (not_worse m cmp v c) eqn:Hnw; [|reflexivity].
    destruct v as [| |a], c as [| |b]; try contradiction.
    destruct (cmp_signs cmp Hto a b) as (n & k & Hn & Hk & H1 & H2).
    revert Hge Hnw. unfold adjusted_down, not_worse.
    destruct m; rewrite Hn; simpl; lia.
Qed.

(** Sifting up leaves at the root what was there, or brings the sifted
    value there. *)
Lemma sift_up_root_choice s i s' :
  sift_up_spec m cmp s i s' -> i < length s ->
  get s' 0 = get s 0 \/ get s' 0 = get s i.
Proof.
  induction 1 as [s|s i Hi Hge|s i s' Hi Hge _ IH]; intros Hlen;
    [left; reflexivity..|].
  pose proof (parent_lt i ltac:(lia)) as Hp.
  destruct (IH ltac:(rewrite length_swap; lia)) as [-> | ->];
    rewrite get_swap by lia.
  - rewrite (decide_False (P := 0 = i)) by lia.
    destruct (decide (0 = (i - 1) / 2)); [right | left]; reflexivity.
  - rewrite (decide_False (P := (i - 1) / 2 = i)) by lia.
    rewrite decide_True by reflexivity. right. reflexivity.
Qed.

(** A value that the root is not worse than does not become the root. *)
Lemma sift_up_root_fixed s i s' :
  total_order cmp ->
  sift_up_spec m cmp s i s' ->
  1 <= i < length s -> Forall is_elem s ->
  not_worse m cmp (get s 0) (get s i) = true ->
  get s' 0 = get s 0.
Proof.
  intros Hto. induction 1 as [s|s i Hi Hge|s i s' Hi Hge _ IH];
    intros Hlen Hel Hroot; [lia | reflexivity |].
  pose proof (parent_lt i ltac:(lia)) as Hp.
  destruct (decide ((i - 1) / 2 = 0)) as [Hp0|Hp0].
  - rewrite up_test_eq, Hp0, Hroot in Hge;
      [discriminate | assumption | apply elem_get; (assumption || lia)..].
  - rewrite IH.
    + rewrite get_swap by lia.
      rewrite (decide_False (P := 0 = i)) by lia.
      rewrite (decide_False (P := 0 = (i - 1) / 2)) by lia. reflexivity.
    + rewrite length_swap. lia.
    + rewrite swap_perm by lia. assumption.
    + rewrite !get_swap by lia.
      rewrite (decide_False (P := 0 = i)) by lia.
      rewrite (decide_False (P := 0 = (i - 1) / 2)) by lia.
      rewrite (decide_False (P := (i - 1) / 2 = i)) by lia.
      rewrite decide_True by reflexivity. assumption.
Qed.
End RootAfterInsert.

Section InsertRoot.
Context {T : Type}.
Implicit Types (h : heap T) (e : value T).

Lemma peek_nonempty h :
  _storage h <> [] -> peek h = get (_storage h) 0.
Proof.
  intros Hs. unfold peek. destruct (decide _) as [Hl|_]; [|reflexivity].
  destruct (_storage h); [contradiction | discriminate Hl].
Qed.

Lemma insert_nonempty e h : _storage (insert e h) <> [].
Proof.
  intros Hs. pose proof (insert_length e h) as Hl. rewrite Hs in Hl.
  discriminate Hl.
Qed.

Lemma insert_sift e h :
  _storage h <> [] ->
  sift_up_spec (_mode h) (_comparator h) (_storage h ++ [e])
    (length (_storage h)) (_storage (insert e h)).
Proof.
  intros Hs. rewrite (insert_storage_cons e h Hs). apply heapUp_spec.
  rewrite length_app. cbn [length].
  destruct (_storage h); [contradiction | cbn [length]; lia].
Qed.

Lemma get_snoc (s : list (value T)) e : get (s ++ [e]) (length s) = e.
Proof.
  unfold get. rewrite lookup_app_r by lia.
  replace (length s - length s) with 0 by lia. reflexivity.
Qed.

(** The root after [insert], by the order of the old root and the new
    element. *)
Lemma insert_root h (x : T) :
  total_order (_comparator h) -> valid h -> _storage h <> [] ->
  get (_storage (insert (VElem x) h)) 0 =
    if not_worse (_mode h) (_comparator h) (get (_storage h) 0) (VElem x)
    then get (_storage h) 0 else VElem x.
Proof.
  intros Hto Hv Hs.
  assert (Hlen : 1 <= length (_storage h)).
  { destruct (_storage h); [contradiction | cbn [length]; lia]. }
  pose proof (insert_sift (VElem x) h Hs) as Hsift.
  assert (Hel : Forall is_elem (_storage h ++ [VElem x])).
  { apply Forall_app. split; [apply Hv|]. constructor; [exact I|constructor]. }
  destruct (not_worse _ _ (get (_storage h) 0) (VElem x)) eqn:Hnw.
  - rewrite (sift_up_root_fixed _ _ _ _ _ Hto Hsift).
    + apply get_app_l. lia.
    + rewrite length_app. cbn [length]. lia.
    + assumption.
    + rewrite get_app_l, get_snoc by lia. assumption.
  - destruct (sift_up_root_choice _ _ _ _ _ Hsift) as [Hr|Hr].
    + rewrite length_app. cbn [length]. lia.
    + exfalso. rewrite get_app_l in Hr by lia.
      pose proof (insert_valid h x Hto Hv) as [Hel' Hord'].
      unfold heap_property in Hord'.
      rewrite insert_mode, insert_comparator in Hord'.
      assert (Hin : VElem x ∈ _storage (insert (VElem x) h)).
      { rewrite insert_perm. apply elem_of_app. right. constructor. }
      apply list_elem_of_lookup in Hin as [j Hj].
      pose proof (root_not_worse _ _ _ j Hto Hel' Hord'
                    (lookup_lt_Some _ _ _ Hj)) as Hroot.
      rewrite (get_lookup _ _ _ Hj), Hr, Hnw in Hroot. discriminate Hroot.
    + rewrite Hr. apply get_snoc.
Qed.
End InsertRoot.

(** X5. Whatever the comparator and the inserted value, [insert] changes
    what [peek()] returns to the inserted value or not at all. *)
Theorem insert_changes_root_to_element_only {T : Type} (e : value T)
    (h : heap T) :
  peek (insert e h) = e \/
  (_storage h <> [] /\ peek (insert e h) = peek h).
Proof.
  rewrite (peek_nonempty _ (insert_nonempty e h)).
  destruct (decide (_storage h = [])) as [Hs|Hs].
  - left. rewrite (insert_storage_nil e h Hs). reflexivity.
  - destruct (sift_up_root_choice _ _ _ _ _ (insert_sift e h Hs)) as [Hr|Hr].
    + rewrite length_app. cbn [length]. lia.
    + right. split; [assumption|].
      rewrite Hr, (peek_nonempty h Hs). apply get_app_l.
      destruct (_storage h); [contradiction | cbn [length]; lia].
    + left. rewrite Hr. apply get_snoc.
Qed.

(** X6. On a non-empty heap of elements in heap order, under a consistent
    total order, [insert(x)] changes what [peek()] returns exactly when
    the old root is worse than [x]: the root stays when it is not worse
    than [x] (ties included), and is [x] otherwise. *)
Theorem peek_after_insert {T : Type} (h : heap T) (x : T) :
  total_order (_comparator h) -> valid h -> _storage h <> [] ->
  peek (insert (VElem x) h) =
    if not_worse (_mode h) (_comparator h) (peek h) (VElem x)
    then peek h else VElem x.
Proof.
  intros Hto Hv Hs.
  rewrite (peek_nonempty _ (insert_nonempty (VElem x) h)).
  rewrite (peek_nonempty h Hs). apply insert_root; assumption.
Qed.

Lemma peek_after_insert_witness :
  peek (insert (VElem 0%Z) (insert_all scenario (new_heap MinHeap subtract)))
  = if not_worse MinHeap subtract
         (peek (insert_all scenario (new_heap MinHeap subtract))) (VElem 0%Z)
    then peek (insert_all scenario (new_heap MinHeap subtract))
    else VElem 0%Z.
Proof.
  apply (peek_after_insert (insert_all scenario (new_heap MinHeap subtract))
           0%Z).
  - apply subtract_total_order.
  - apply insert_all_valid;
      [apply subtract_total_order | apply new_heap_valid].
  - vm_compute. discriminate.
Defined.

(** X7. Insert, then remove, on a non-empty heap of elements in heap
    order under a consistent total order: the call returns the old root
    when it is not worse than the new element [x], and [x] otherwise; in
    the second case the storage holds again what it held before the two
    calls; in both cases the result is in heap order. *)
Theorem insert_then_remove {T : Type} (h : heap T) (x : T) :
  total_order (_comparator h) -> valid h -> _storage h <> [] ->
  (remove (insert (VElem x) h)).1 =
    (if not_worse (_mode h) (_comparator h) (peek h) (VElem x)
     then peek h else VElem x) /\
  (remove (insert (VElem x) h)).1 :: _storage (remove (insert (VElem x) h)).2
    ≡ₚ _storage h ++ [VElem x] /\
  (not_worse (_mode h) (_comparator h) (peek h) (VElem x) = false ->
   _storage (remove (insert (VElem x) h)).2 ≡ₚ _storage h) /\
  valid (remove (insert (VElem x) h)).2.
Proof.
  intros Hto Hv Hs.
  pose proof (insert_nonempty (VElem x) h) as Hne.
  pose proof (remove_perm _ Hne) as Hperm. rewrite insert_perm in Hperm.
  assert (Hret : (remove (insert (VElem x) h)).1 =
                 if not_worse (_mode h) (_comparator h) (peek h) (VElem x)
                 then peek h else VElem x).
  { rewrite (remove_root _ Hne), (peek_nonempty h Hs).
    apply insert_root; assumption. }
  split; [assumption|]. split; [symmetry; assumption|]. split.
  - intros Hnw. rewrite Hret, Hnw in Hperm.
    rewrite <- Permutation_cons_append in Hperm.
    apply Permutation_cons_inv in Hperm. symmetry. assumption.
  - apply remove_valid; [rewrite insert_comparator; assumption | | assumption].
    apply insert_valid; assumption.
Qed.

Lemma insert_then_remove_witness :
  let h := insert_all scenario (new_heap MaxHeap subtract) in
  (remove (insert (VElem 7%Z) h)).1 =
    (if not_worse (_mode h) (_comparator h) (peek h) (VElem 7%Z)
     then peek h else VElem 7%Z) /\
  (remove (insert (VElem 7%Z) h)).1
    :: _storage (remove (insert (VElem 7%Z) h)).2
    ≡ₚ _storage h ++ [VElem 7%Z] /\
  (not_worse (_mode h) (_comparator h) (peek h) (VElem 7%Z) = false ->
   _storage (remove (insert (VElem 7%Z) h)).2 ≡ₚ _storage h) /\
  valid (remove (insert (VElem 7%Z) h)).2.
Proof.
  apply (insert_then_remove
           (insert_all scenario (new_heap MaxHeap subtract)) 7%Z).
  - apply subtract_total_order.
  - apply insert_all_valid;
      [apply subtract_total_order | apply new_heap_valid].
  - vm_compute. discriminate.
Defined.

(** ** Sifting a storage that is in heap order *)

(** X8. On a storage of elements in heap order, under a consistent total
    order, neither sift moves anything: [_heapDown] from any index and
    [_heapUp] from any index of the storage but the root return the
    storage as it is. *)
Theorem sifts_keep_a_heap {T : Type} (m : mode) (cmp : comparator_fn T)
    (s : list (value T)) :
  total_order cmp -> Forall is_elem s -> heap_ordered m cmp s ->
  (forall i, _heapDown m cmp s i = s) /\
  (forall i, 1 <= i < length s -> _heapUp m cmp s i = s).
Proof.
  intros Hto Hel Hord.
  pose proof (proj1 (heap_ordered_parent _ _ _) Hord) as Hpar.
  split.
  - intros i. apply (sift_down_spec_fun m cmp s i); [apply heapDown_spec|].
    destruct (decide (length s <= 2 * i + 1)) as [Hleaf|Hl].
    { apply sift_down_leaf. assumption. }
    destruct (chosen_child_range m cmp s i ltac:(lia)) as [Hc Hclt].
    apply sift_down_stop; [lia|].
    rewrite down_test_eq;
      [| assumption | apply elem_get; (assumption || lia)..].
    specialize (Hpar (chosen_child m cmp s i) ltac:(lia)).
    replace ((chosen_child m cmp s i - 1) / 2) with i in Hpar;
      [assumption|].
    destruct Hc as [-> | ->];
      [rewrite parent_left | rewrite parent_right]; reflexivity.
  - intros i Hi. apply (sift_up_spec_fun m cmp s i);
      [apply heapUp_spec; assumption|].
    pose proof (parent_lt i ltac:(lia)).
    apply sift_up_stop; [lia|].
    rewrite up_test_eq;
      [| assumption | apply elem_get; (assumption || lia)..].
    apply Hpar. lia.
Qed.

Lemma sifts_keep_a_heap_witness :
  let s := _storage (insert_all scenario (new_heap MinHeap subtract)) in
  (forall i, _heapDown MinHeap subtract s i = s) /\
  (forall i, 1 <= i < length s -> _heapUp MinHeap subtract s i = s).
Proof.
  apply (sifts_keep_a_heap MinHeap subtract
           (_storage (insert_all scenario (new_heap MinHeap subtract)))).
  - apply subtract_total_order.
  - apply (insert_all_valid scenario (new_heap MinHeap subtract));
      [apply subtract_total_order | apply new_heap_valid].
  - apply (insert_all_valid scenario (new_heap MinHeap subtract));
      [apply subtract_total_order | apply new_heap_valid].
Defined.

(** ** Depth of the recursion *)

Section Depth.
Context {T : Type}.
Variable m : mode.
Variable cmp : comparator_fn T.
Implicit Types (s : list (value T)) (i : nat).

Lemma heapUp_rec_pow fuel s i :
  1 <= i < 2 ^ fuel -> i < length s ->
  sift_up_spec m cmp s i (heapUp_rec m cmp fuel s i).
Proof.
  revert s i. induction fuel as [|fuel IH]; intros s i Hi Hlen.
  { rewrite Nat.pow_0_r in Hi. lia. }
  rewrite Nat.pow_succ_r' in Hi.
  pose proof (parent_cases i ltac:(lia)) as Hp.
  cbn [heapUp_rec]. cbv zeta. rewrite up_factor.
  destruct (ge0 _) eqn:Hge.
  - apply sift_up_stop; [lia | assumption].
  - rewrite set_set_swap by lia.
    apply sift_up_swap; [lia | assumption |].
    destruct (decide (0 = (i - 1) / 2)) as [<-|Hne].
    + apply sift_up_root.
    + apply IH; [lia | rewrite length_swap; lia].
Qed.

(** One unrolling of [_heapDown], with the choice of the child and the
    two writes folded. *)
Lemma heapDown_rec_step fuel s i :
  heapDown_rec m cmp (S fuel) s i =
    if decide (length s <= 2 * i + 1) then s
    else if ge0 (adjusted_down m
                   (cmp (get s i) (get s (chosen_child m cmp s i))))
    then s
    else heapDown_rec m cmp fuel (swap s i (chosen_child m cmp s i))
           (chosen_child m cmp s i).
Proof.
  cbn [heapDown_rec]. cbv zeta.
  destruct (decide (length s <= 2 * i + 1)) as [Hleaf|Hl]; [reflexivity|].
  destruct (chosen_child_range m cmp s i ltac:(lia)) as [_ Hclt].
  rewrite <- down_factor, <- (set_set_swap s i (chosen_child m cmp s i))
    by lia.
  unfold chosen_child. rewrite bool_decide_eq_true_2 by lia.
  cbn [andb]. cbv zeta.
  destruct (decide (2 * i + 2 < length s)).
  - rewrite bool_decide_eq_true_2 by assumption.
    destruct m, (ge0 (cmp _ _)); reflexivity.
  - rewrite bool_decide_eq_false_2 by assumption. reflexivity.
Qed.

Lemma heapDown_rec_pow fuel s i :
  length s < (i + 1) * 2 ^ fuel ->
  sift_down_spec m cmp s i (heapDown_rec m cmp fuel s i).
Proof.
  revert s i. induction fuel as [|fuel IH]; intros s i Hfuel.
  { rewrite Nat.pow_0_r in Hfuel. cbn [heapDown_rec].
    apply sift_down_leaf. lia. }
  rewrite Nat.pow_succ_r' in Hfuel. rewrite heapDown_rec_step.
  destruct (decide (length s <= 2 * i + 1)) as [Hleaf|Hl].
  { apply sift_down_leaf. assumption. }
  destruct (chosen_child_range m cmp s i ltac:(lia)) as [Hc Hclt].
  destruct (ge0 _) eqn:Hge.
  - apply sift_down_stop; [lia | assumption].
  - apply sift_down_swap; [lia | assumption |].
    apply IH. rewrite length_swap. destruct Hc as [-> | ->]; nia.
Qed.
End Depth.

(** X9. The recursion of [_heapUp] is logarithmic in the index: from an
    index [i] of the storage, [1 <= i < 2 ^ n], [n] nested calls give the
    result; [floor(log2 i) + 1] calls always do. *)
Theorem heapUp_depth_logarithmic {T : Type} (m : mode) (cmp : comparator_fn T)
    (s : list (value T)) (i n : nat) :
  1 <= i < length s -> i < 2 ^ n ->
  heapUp_rec m cmp n s i = _heapUp m cmp s i /\
  heapUp_rec m cmp (S (Nat.log2 i)) s i = _heapUp m cmp s i.
Proof.
  intros Hi Hn. split.
  - apply (sift_up_spec_fun m cmp s i); [|apply heapUp_spec; assumption].
    apply heapUp_rec_pow; lia.
  - apply (sift_up_spec_fun m cmp s i); [|apply heapUp_spec; assumption].
    apply heapUp_rec_pow; [|lia].
    pose proof (Nat.log2_spec i ltac:(lia)). lia.
Qed.

Lemma heapUp_depth_logarithmic_witness :
  heapUp_rec MinHeap subtract 3
    [VElem 1; VElem 2; VElem 3; VElem 4; VElem 5; VElem 6; VElem 0]%Z 6
  = _heapUp MinHeap subtract
      [VElem 1; VElem 2; VElem 3; VElem 4; VElem 5; VElem 6; VElem 0]%Z 6 /\
  heapUp_rec MinHeap subtract (S (Nat.log2 6))
    [VElem 1; VElem 2; VElem 3; VElem 4; VElem 5; VElem 6; VElem 0]%Z 6
  = _heapUp MinHeap subtract
      [VElem 1; VElem 2; VElem 3; VElem 4; VElem 5; VElem 6; VElem 0]%Z 6.
Proof.
  apply (heapUp_depth_logarithmic MinHeap subtract
           [VElem 1; VElem 2; VElem 3; VElem 4; VElem 5; VElem 6; VElem 0]%Z
           6 3).
  - simpl. lia.
  - simpl. lia.
Defined.

(** X10. The recursion of [_heapDown] is logarithmic in the length: from
    an index [i], [n] nested calls give the result as soon as
    [length < (i + 1) * 2 ^ n]; from the root, [floor(log2 length) + 1]
    calls always do. *)
Theorem heapDown_depth_logarithmic {T : Type} (m : mode)
    (cmp : comparator_fn T) (s : list (value T)) (i n : nat) :
  length s < (i + 1) * 2 ^ n ->
  heapDown_rec m cmp n s i = _heapDown m cmp s i /\
  heapDown_rec m cmp (S (Nat.log2 (length s))) s 0 = _heapDown m cmp s 0.
Proof.
  intros Hn. split.
  - apply (sift_down_spec_fun m cmp s i); [|apply heapDown_spec].
    apply heapDown_rec_pow. assumption.
  - apply (sift_down_spec_fun m cmp s 0); [|apply heapDown_spec].
    apply heapDown_rec_pow.
    destruct (decide (length s = 0)) as [->|Hne].
    + simpl. lia.
    + pose proof (Nat.log2_spec (length s) ltac:(lia)). lia.
Qed.

Lemma heapDown_depth_logarithmic_witness :
  heapDown_rec MaxHeap subtract 3
    [VElem 0; VElem 6; VElem 5; VElem 4; VElem 3; VElem 2; VElem 1]%Z 0
  = _heapDown MaxHeap subtract
      [VElem 0; VElem 6; VElem 5; VElem 4; VElem 3; VElem 2; VElem 1]%Z 0 /\
  heapDown_rec MaxHeap subtract
    (S (Nat.log2 (length
       [VElem 0; VElem 6; VElem 5; VElem 4; VElem 3; VElem 2; VElem 1]%Z)))
    [VElem 0; VElem 6; VElem 5; VElem 4; VElem 3; VElem 2; VElem 1]%Z 0
  = _heapDown MaxHeap subtract
      [VElem 0; VElem 6; VElem 5; VElem 4; VElem 3; VElem 2; VElem 1]%Z 0.
Proof.
  apply (heapDown_depth_logarithmic MaxHeap subtract
           [VElem 0; VElem 6; VElem 5; VElem 4; VElem 3; VElem 2; VElem 1]%Z
           0 3).
  simpl. lia.
Defined.

(** ** The two modes *)

Lemma heapUp_rec_max_negated {T : Type} (cmp : comparator_fn T) fuel
    (s : list (value T)) (i : nat) :
  heapUp_rec MaxHeap cmp fuel s i = heapUp_rec MinHeap (negated cmp) fuel s i.
Proof.
  revert s i. induction fuel as [|fuel IH]; intros s i; [reflexivity|].
  cbn [heapUp_rec]. cbv zeta. unfold negated at 1. rewrite mul_one.
  destruct (ge0 _); [reflexivity|].
  destruct (decide _); [reflexivity | apply IH].
Qed.

(** X11. Insertion in Max mode is insertion in Min mode with the negated
    comparator: two instances with the same storage, one in Max mode with
    [comparator] and one in Min mode with [-comparator], have the same
    storage after the same [insert], hence after the same inserts on two
    new heaps, and [peek()] returns the same on both. *)
Theorem max_inserts_as_min_negated {T : Type} (cmp : comparator_fn T) :
  (forall (e : value T) (s : list (value T)),
     _storage (insert e (Heap MaxHeap cmp s))
     = _storage (insert e (Heap MinHeap (negated cmp) s))) /\
  (forall xs : list T,
     _storage (insert_all xs (new_heap MaxHeap cmp))
     = _storage (insert_all xs (new_heap MinHeap (negated cmp)))) /\
  (forall xs : list T,
     peek (insert_all xs (new_heap MaxHeap cmp))
     = peek (insert_all xs (new_heap MinHeap (negated cmp)))).
Proof.
  assert (Hone : forall (e : value T) (h1 h2 : heap T),
    _mode h1 = MaxHeap -> _comparator h1 = cmp ->
    _mode h2 = MinHeap -> _comparator h2 = negated cmp ->
    _storage h1 = _storage h2 ->
    _storage (insert e h1) = _storage (insert e h2)).
  { intros e h1 h2 Hm1 Hc1 Hm2 Hc2 Hs. unfold insert.
    rewrite Hm1, Hc1, Hm2, Hc2, Hs.
    destruct (decide _); [reflexivity|]. cbn [_storage with_storage].
    unfold _heapUp. apply heapUp_rec_max_negated. }
  assert (Hall : forall xs : list T,
    _storage (insert_all xs (new_heap MaxHeap cmp))
    = _storage (insert_all xs (new_heap MinHeap (negated cmp)))).
  { intros xs. induction xs as [|x xs IH] using rev_ind; [reflexivity|].
    rewrite !insert_all_snoc. apply Hone;
      rewrite ?insert_all_mode, ?insert_all_comparator;
      reflexivity || assumption. }
  split; [|split].
  - intros e s. apply Hone; reflexivity.
  - assumption.
  - intros xs. unfold peek. rewrite (Hall xs). reflexivity.
Qed.

(** ** The traversal of the test suite *)

(** X12. The loop [while (el = h.remove())] returns a prefix of what the
    traversal up to the sentinel returns: the results before the first
    one that is not truthy.  It returns all of them exactly when all are
    truthy; an element such as [0] ends it early. *)
Theorem drain_truthy_prefix {T : Type} (truthy : T -> bool) (fuel : nat)
    (h : heap T) (out : list (value T)) (h' : heap T) :
  drain fuel h = Some (out, h') ->
  exists pre rest h'',
    drain_truthy truthy fuel h = Some (pre, h'') /\
    out = pre ++ rest /\
    Forall (fun v => ToBoolean truthy v = true) pre /\
    match rest with
    | [] => h'' = h'
    | v :: _ => ToBoolean truthy v = false
    end.
Proof.
  revert h out. induction fuel as [|fuel IH]; intros h out Hd;
    [discriminate|].
  cbn [drain drain_truthy] in *.
  destruct (remove h) as [el h1].
  destruct (is_empty_sentinel el) eqn:Hsent.
  - simplify_eq.
    assert (Hf : ToBoolean truthy el = false) by (destruct el; done).
    rewrite Hf. exists [], [], h'. repeat split. constructor.
  - destruct (drain fuel h1) as [[out1 h2]|] eqn:Hd1; [|discriminate].
    simplify_eq.
    destruct (ToBoolean truthy el) eqn:Htr.
    + destruct (IH _ _ Hd1) as (pre & rest & h'' & -> & -> & Hpre & Hrest).
      exists (el :: pre), rest, h''. repeat split; [|assumption].
      constructor; assumption.
    + exists [], (el :: out1), h1. repeat split; [constructor | assumption].
Qed.

Lemma drain_truthy_prefix_witness :
  exists pre rest h'',
    drain_truthy (fun z => negb (z =? 0)%Z) 4
      (insert_all [5; 0; 3]%Z (new_heap MinHeap subtract)) = Some (pre, h'') /\
    [VElem 0; VElem 3; VElem 5]%Z = pre ++ rest /\
    Forall (fun v => ToBoolean (fun z => negb (z =? 0)%Z) v = true) pre /\
    match rest with
    | [] => h'' = Heap MinHeap subtract [VUndefined]
    | v :: _ => ToBoolean (fun z => negb (z =? 0)%Z) v = false
    end.
Proof.
  apply (drain_truthy_prefix (fun z => negb (z =? 0)%Z) 4
           (insert_all [5; 0; 3]%Z (new_heap MinHeap subtract))
           [VElem 0; VElem 3; VElem 5]%Z
           (Heap MinHeap subtract [VUndefined])).
  reflexivity.
Defined.

(** With [0] among the elements of a Min heap the loop of the test suite
    returns nothing. *)
Example drain_truthy_stops_at_zero :
  option_map fst
    (drain_truthy (fun z => negb (z =? 0)%Z) 4
       (insert_all [5; 0; 3]%Z (new_heap MinHeap subtract)))
  = Some [].
Proof. reflexivity. Qed.

(** ** What the sifts and the traversal leave behind *)

(** X13. Whatever the comparator returns, the sifts only reorder:
    [_heapDown] from any index, and [_heapUp] from any index of the
    storage but the root, return a permutation of the storage, of the
    same length. *)
Theorem sifts_permute {T : Type} (m : mode) (cmp : comparator_fn T)
    (s : list (value T)) (i : nat) :
  1 <= i < length s ->
  _heapUp m cmp s i ≡ₚ s /\
  length (_heapUp m cmp s i) = length s /\
  (forall k, _heapDown m cmp s k ≡ₚ s /\
             length (_heapDown m cmp s k) = length s).
Proof.
  intros Hi.
  assert (Hup : _heapUp m cmp s i ≡ₚ s).
  { apply (sift_up_perm m cmp s i); [apply heapUp_spec; assumption | lia]. }
  assert (Hdown : forall k, _heapDown m cmp s k ≡ₚ s).
  { intros k. apply (sift_down_perm m cmp s k). apply heapDown_spec. }
  split; [assumption|]. split; [rewrite Hup; reflexivity|].
  intros k. split; [apply Hdown | rewrite (Hdown k); reflexivity].
Qed.

Lemma sifts_permute_witness :
  _heapUp MinHeap (fun _ _ => NaN) [VElem 1; VUndefined; VElem 3]%Z 2
  ≡ₚ [VElem 1; VUndefined; VElem 3]%Z /\
  length (_heapUp MinHeap (fun _ _ => NaN)
            [VElem 1; VUndefined; VElem 3]%Z 2)
  = length [VElem 1; VUndefined; VElem 3]%Z /\
  (forall k,
     _heapDown MinHeap (fun _ _ => NaN) [VElem 1; VUndefined; VElem 3]%Z k
     ≡ₚ [VElem 1; VUndefined; VElem 3]%Z /\
     length (_heapDown MinHeap (fun _ _ => NaN)
               [VElem 1; VUndefined; VElem 3]%Z k)
     = length [VElem 1; VUndefined; VElem 3]%Z).
Proof.
  apply (sifts_permute MinHeap (fun _ _ => NaN)
           [VElem 1; VUndefined; VElem 3]%Z 2).
  simpl. lia.
Defined.

Lemma drain_end {T : Type} (fuel : nat) (h : heap T)
    (out : list (value T)) (h' : heap T) :
  Forall is_elem (_storage h) ->
  drain fuel h = Some (out, h') ->
  _storage h' = [VUndefined] /\ peek h' = VUndefined.
Proof.
  revert h out. induction fuel as [|fuel IH]; intros h out Hel Hd;
    [discriminate|].
  cbn [drain] in Hd.
  destruct (decide (_storage h = [])) as [Hs|Hs].
  - rewrite (remove_nil h Hs) in Hd. simpl in Hd. simplify_eq.
    split; reflexivity.
  - pose proof (remove_root h Hs) as Hroot.
    pose proof (remove_perm h Hs) as Hperm.
    destruct (remove h) as [el h1]. simpl in *.
    assert (Hel1 : Forall is_elem (el :: _storage h1)).
    { rewrite <- Hperm. assumption. }
    apply Forall_cons in Hel1 as [Hel0 Hel1].
    destruct el as [| |x]; try contradiction. simpl in Hd.
    destruct (drain fuel h1) as [[out1 h2]|] eqn:Hd1; [|discriminate].
    simplify_eq. eapply IH; eassumption.
Qed.

(** X14. A traversal of a heap of elements always ends, after one call
    more than there are elements, and it ends with a [remove()] on the
    empty storage: it returns every stored element and leaves the storage
    holding one slot, [undefined], so that afterwards [peek()] returns
    [undefined] and not the [false] of an empty heap. *)
Theorem drain_leaves_undefined {T : Type} (h : heap T) (fuel : nat) :
  Forall is_elem (_storage h) ->
  length (_storage h) < fuel ->
  exists out h',
    drain fuel h = Some (out, h') /\
    out ≡ₚ _storage h /\
    _storage h' = [VUndefined] /\
    peek h' = VUndefined.
Proof.
  intros Hel Hfuel.
  destruct (drain_returns fuel h Hel Hfuel) as (out & h' & Hd).
  exists out, h'. split; [assumption|].
  split; [exact (drain_perm _ _ _ _ Hel Hd)|].
  exact (drain_end _ _ _ _ Hel Hd).
Qed.

Lemma drain_leaves_undefined_witness :
  exists out h',
    drain 7 (insert_all scenario (new_heap MinHeap subtract))
    = Some (out, h') /\
    out ≡ₚ _storage (insert_all scenario (new_heap MinHeap subtract)) /\
    _storage h' = [VUndefined] /\
    peek h' = VUndefined.
Proof.
  apply (drain_leaves_undefined
           (insert_all scenario (new_heap MinHeap subtract)) 7).
  - apply (insert_all_valid scenario (new_heap MinHeap subtract));
      [apply subtract_total_order | apply new_heap_valid].
  - vm_compute. lia.
Defined.
